(** * bandy-stat: the appearance pipeline, embedded and verified

    A shallow embedding of the roster/appearance pipeline of the
    repository ([analyze_players.py], [processing.py]) together with the
    properties its specification states about it.

    Python [str] values are sequences of Unicode code points, so a string
    is a [list N]; [dict]s are stdpp [gmap]s; a pandas frame is the list of
    its rows. *)

From Stdlib Require Import ZArith NArith Lia Ascii String.
From stdpp Require Import base decidable option list sorting gmap pretty.

(** ** Python strings *)

Module PyStr.

(** [str.isspace] on one code point: the characters CPython's
    [Py_UNICODE_ISSPACE] accepts. *)
Definition cp_isspace (c : N) : bool :=
  ((9 <=? c) && (c <=? 13) || (28 <=? c) && (c <=? 32)
   || (c =? 133) || (c =? 160) || (c =? 5760)
   || (8192 <=? c) && (c <=? 8202)
   || (c =? 8232) || (c =? 8233) || (c =? 8239) || (c =? 8287)
   || (c =? 12288))%N.

Definition SPACE : N := 32%N.

Fixpoint lstrip (s : list N) : list N :=
  match s with
  | c :: s' => if cp_isspace c then lstrip s' else s
  | [] => []
  end.

Definition rstrip (s : list N) : list N := reverse (lstrip (reverse s)).

(** [s.strip()] *)
Definition strip (s : list N) : list N := rstrip (lstrip s).

(** [s.split()]: one left-to-right scan, [cur] holding the characters of
    the word being read, last one first. *)
Fixpoint split_from (cur : list N) (s : list N) : list (list N) :=
  match s with
  | [] => match cur with [] => [] | _ => [reverse cur] end
  | c :: s' =>
      if cp_isspace c
      then match cur with
           | [] => split_from [] s'
           | _ => reverse cur :: split_from [] s'
           end
      else split_from (c :: cur) s'
  end.

Definition split (s : list N) : list (list N) := split_from [] s.

(** [sep.join(parts)] *)
Fixpoint join (sep : list N) (parts : list (list N)) : list N :=
  match parts with
  | [] => []
  | [t] => t
  | t :: rest => t ++ sep ++ join sep rest
  end.

(** [s.isspace()] and the emptiness test [not s]. *)
Definition is_empty (s : list N) : bool :=
  match s with [] => true | _ => false end.

Definition isspace (s : list N) : bool :=
  negb (is_empty s) && forallb cp_isspace s.

(** [sub in s] *)
Fixpoint starts_with (p s : list N) : bool :=
  match p, s with
  | [], _ => true
  | a :: p', b :: s' => (a =? b)%N && starts_with p' s'
  | _ :: _, [] => false
  end.

Fixpoint contains (sub s : list N) : bool :=
  starts_with sub s ||
  match s with
  | [] => false
  | _ :: s' => contains sub s'
  end.

(** Python compares strings code point by code point. *)
Fixpoint str_leb (a b : list N) : bool :=
  match a, b with
  | [], _ => true
  | _ :: _, [] => false
  | x :: a', y :: b' => (x <? y)%N || (x =? y)%N && str_leb a' b'
  end.

Definition str_le (a b : list N) : Prop := Is_true (str_leb a b).

#[export] Instance str_le_dec : RelDecision str_le :=
  λ a b, Is_true_dec (str_leb a b).

(** ASCII literals of the source, as code points. *)
Definition lit (s : string) : list N :=
  N_of_ascii <$> list_ascii_of_string s.

Definition nonspace (c : N) : Prop := cp_isspace c = false.

(** A word, as [split] produces them: non-empty and free of whitespace. *)
Definition word (t : list N) : Prop :=
  t ≠ [] ∧ Forall nonspace t.

(** Whitespace occurs only as single U+0020 characters. *)
Fixpoint single_spaced (s : list N) : bool :=
  match s with
  | [] => true
  | c :: s' =>
      (negb (cp_isspace c)
       || (c =? SPACE)%N
          && match s' with [] => true | c' :: _ => negb (cp_isspace c') end)
      && single_spaced s'
  end.

End PyStr.
Import PyStr.

(** ** Values, exceptions and the interpreter's tables *)

(** A finite float is the dyadic rational [m * 2^e]. *)
Inductive pyfloat :=
| FNan
| FInf (negative : bool)
| FFinite (m e : Z).

(** What a cell of a frame can hold. *)
Inductive pyval :=
| VNone
| VStr (s : list N)
| VInt (z : Z)
| VFloat (f : pyfloat).

(** [FetchError] is the browser's error, with its message: a page that
    cannot be reached, or a script that fails in the page. *)
Inductive exn :=
| ValueError
| TypeError
| OverflowError
| AttributeError
| IndexError
| KeyError
| FetchError (reason : list N).

Inductive result (A : Type) :=
| Ok (a : A)
| Raise (e : exn).
Arguments Ok {A} a.
Arguments Raise {A} e.

#[export] Instance result_ret : MRet result := λ A a, Ok a.
#[export] Instance result_bind : MBind result := λ A B f m,
  match m with
  | Ok a => f a
  | Raise e => Raise e
  end.

(** The Unicode database and the formatting of values are the
    interpreter's, not the repository's: the development is parametric in
    them. *)
Class Runtime := {
  str_lower : list N → list N;      (* [str.lower] *)
  str_upper : list N → list N;      (* [str.upper] *)
  cp_isdigit : N → bool;            (* [str.isdigit] on one code point *)
  cp_decimal : N → option N;        (* decimal value of a non-ASCII digit *)
  py_format : pyval → list N;       (* [f"{v}"] *)
}.

(** ** [int(x)] and [safe_int] *)

Module Coerce.
Section Coerce.
Context `{Runtime}.

Definition ascii_space (c : N) : bool :=
  ((9 <=? c) && (c <=? 13) || (c =? 32))%N.

(** The interpreter first rewrites non-ASCII spaces and decimal digits to
    ASCII and cuts the text at the first character it cannot rewrite,
    leaving a question mark there. *)
Definition to_ascii (c : N) : option N :=
  if (c <? 127)%N then Some c
  else if cp_isspace c then Some SPACE
  else (λ d, 48 + d)%N <$> cp_decimal c.

Fixpoint transform (s : list N) : list N :=
  match s with
  | [] => []
  | c :: s' =>
      match to_ascii c with
      | Some a => a :: transform s'
      | None => [63%N]
      end
  end.

Definition digit_val (c : N) : option Z :=
  if ((48 <=? c) && (c <=? 57))%N then Some (Z.of_N (c - 48)) else None.

Definition UNDERSCORE : N := 95%N.

(** Digits, single underscores allowed between them. [prev_us] records that
    the previous character was an underscore. *)
Fixpoint scan_digits (acc : Z) (prev_us : bool) (s : list N)
  : option (Z * list N) :=
  match s with
  | [] => if prev_us then None else Some (acc, [])
  | c :: s' =>
      match digit_val c with
      | Some d => scan_digits (10 * acc + d) false s'
      | None =>
          if (c =? UNDERSCORE)%N
          then (if prev_us then None else scan_digits acc true s')
          else (if prev_us then None else Some (acc, s))
      end
  end.

Fixpoint skip_spaces (s : list N) : list N :=
  match s with
  | c :: s' => if ascii_space c then skip_spaces s' else s
  | [] => []
  end.

Definition split_sign (s : list N) : bool * list N :=
  match s with
  | c :: r =>
      if (c =? 43)%N then (false, r)
      else if (c =? 45)%N then (true, r)
      else (false, s)
  | [] => (false, [])
  end.

(** [int(s)] for a string, base 10. *)
Definition int_of_str (s : list N) : option Z :=
  let s1 := skip_spaces (transform s) in
  let '(neg, s2) := split_sign s1 in
  match s2 with
  | [] => None
  | c :: _ =>
      match digit_val c with
      | None => None
      | Some _ =>
          match scan_digits 0 false s2 with
          | Some (v, rest) =>
              if is_empty (skip_spaces rest)
              then Some (if neg then - v else v)%Z
              else None
          | None => None
          end
      end
  end.

(** [int(f)] for a float: truncation towards zero. *)
Definition int_of_float (f : pyfloat) : result Z :=
  match f with
  | FNan => Raise ValueError
  | FInf _ => Raise OverflowError
  | FFinite m e =>
      Ok (if (0 <=? e)%Z then m * 2 ^ e else Z.quot m (2 ^ (- e)))%Z
  end.

(** [int(x)] *)
Definition py_int (x : pyval) : result Z :=
  match x with
  | VInt z => Ok z
  | VFloat f => int_of_float f
  | VStr s =>
      match int_of_str s with
      | Some z => Ok z
      | None => Raise ValueError
      end
  | VNone => Raise TypeError
  end.

(** [safe_int]: [try: return int(x) except Exception: return 0]. *)
Definition safe_int (x : pyval) : Z :=
  match py_int x with
  | Ok z => z
  | Raise _ => 0%Z
  end.

End Coerce.
End Coerce.

(** ** [processing.normalize_name] *)

Module Processing.
Section Processing.
(** [unicodedata.normalize("NFKC", ·)] *)
Variable nfkc : list N → list N.

Definition normalize_name (name : list N) : list N :=
  if is_empty name then name
  else
    let s := nfkc name in
    let s := strip s in
    let s := join [SPACE] (split s) in
    s.

End Processing.

(** The part of NFKC that maps one character to one character and is used
    in the examples: the no-break and typographic spaces become U+0020 and
    the full-width forms of ASCII become ASCII. *)
Definition nfkc_cp (c : N) : N :=
  if ((c =? 160) || (8192 <=? c) && (c <=? 8202) || (c =? 8239)
      || (c =? 8287) || (c =? 12288))%N then SPACE
  else if ((65281 <=? c) && (c <=? 65374))%N then (c - 65248)%N
  else c.

Definition nfkc_fragment (s : list N) : list N := nfkc_cp <$> s.

End Processing.

(** ** The row extractor: [fetch_player_appearances] *)

Module Extractor.

(** A [<table>]: the texts of the [th] cells of its [thead], when it has
    one, and the texts of the [td] cells of each [tbody tr]. *)
Record html_table := {
  thead : option (list (list N));
  tbody : list (list (list N));
}.

(** The next element sibling of an [h4]: a table, another element, or
    none. Without a sibling the handle the browser returns is that of
    [null], and reading [tagName] on it fails in the page with [reason]. *)
Inductive sibling :=
| TableSibling (t : html_table)
| OtherSibling
| NoSibling (reason : list N).

(** What the extractor looks at on a page: each [h4] with its text and its
    next element sibling, and all the tables in document order. *)
Record page := {
  headings : list (list N * sibling);
  tables : list html_table;
}.

Record row_data := {
  competition : list N;
  team : list N;
  matches : list N;
  goals : list N;
  assists : list N;
  points : list N;
  penalty : list N;
}.

Definition SEASON : list N := lit "2025/26".

(** The header names, lower-cased, of the seven fields. *)
Definition K_competition : list N := lit "t" ++ [228%N] ++ lit "vling".
Definition K_team : list N := lit "lag".
Definition K_matches : list N := lit "ma".
Definition K_goals : list N := lit "m" ++ [229%N].
Definition K_assists : list N := lit "ass".
Definition K_points : list N := lit "p".
Definition K_penalty : list N := lit "utv".

(** The loop over the [h4]s: the first one that holds the season decides
    when its sibling is a table and raises when it has no sibling; the loop
    goes on after a sibling that is not a table. *)
Fixpoint season_table (hs : list (list N * sibling))
  : result (option html_table) :=
  match hs with
  | [] => Ok None
  | (text, next) :: hs' =>
      if contains SEASON text
      then match next with
           | TableSibling t => Ok (Some t)
           | OtherSibling => season_table hs'
           | NoSibling reason => Raise (FetchError reason)
           end
      else season_table hs'
  end.

Definition select_table (p : page) : result (option html_table) :=
  found ← season_table (headings p);
  match found with
  | Some t => Ok (Some t)
  | None => Ok (head (tables p))
  end.

Section Extractor.
Context `{Runtime}.

Definition headers_of (t : html_table) : list (list N) :=
  match thead t with
  | Some ths => strip <$> ths
  | None => []
  end.

(** [{h.lower(): i for i, h in enumerate(headers)}] *)
Fixpoint col_map_from (i : nat) (headers : list (list N))
    (m : gmap (list N) nat) : gmap (list N) nat :=
  match headers with
  | [] => m
  | h :: hs => col_map_from (S i) hs (<[str_lower h := i]> m)
  end.

Definition col_map (headers : list (list N)) : gmap (list N) nat :=
  col_map_from 0 headers ∅.

(** [tds[col_map.get(key, dflt)].inner_text().strip() if key in col_map
    else ""] *)
Definition field (cm : gmap (list N) nat) (tds : list (list N))
    (key : list N) (dflt : nat) : result (list N) :=
  if decide (is_Some (cm !! key))
  then match tds !! default dflt (cm !! key) with
       | Some td => Ok (strip td)
       | None => Raise IndexError
       end
  else Ok [].

Definition extract_row (cm : gmap (list N) nat) (tds : list (list N))
  : result row_data :=
  c ← field cm tds K_competition 0;
  t ← field cm tds K_team 1;
  m ← field cm tds K_matches 2;
  g ← field cm tds K_goals 3;
  a ← field cm tds K_assists 4;
  p ← field cm tds K_points 5;
  u ← field cm tds K_penalty 6;
  mret {| competition := c; team := t; matches := m; goals := g;
          assists := a; points := p; penalty := u |}.

(** The loop over [tbody tr]; [rows] is the list built so far. *)
Fixpoint extract_rows (cm : gmap (list N) nat) (nheaders : nat)
    (trs : list (list (list N))) (rows : list row_data)
  : result (list row_data) :=
  match trs with
  | [] => Ok rows
  | tds :: trs' =>
      if bool_decide (tds = []) || (length tds <? nheaders)%nat
      then extract_rows cm nheaders trs' rows
      else
        row ← extract_row cm tds;
        extract_rows cm nheaders trs' (rows ++ [row])
  end.

Definition extract_table (t : html_table) : result (list row_data) :=
  let headers := headers_of t in
  extract_rows (col_map headers) (length headers) (tbody t) [].

(** The part of [fetch_player_appearances] after the page is loaded. *)
Definition page_rows (p : page) : result (list row_data) :=
  selected ← select_table p;
  match selected with
  | Some t => extract_table t
  | None => Ok []
  end.

End Extractor.
End Extractor.

(** ** Frames, pivot tables and the run of the pipeline *)

Module Frame.

(** A record of the flat appearance list, as [analyze_trupp] appends it. *)
Record appearance := {
  ap_player : list N;
  ap_division : list N;
  ap_team : list N;
  ap_matches : list N;
  ap_goals : list N;
  ap_assists : list N;
  ap_points : list N;
  ap_penalty : list N;
}.

(** A row of the frame read back from the appearance file. The player
    column is read as text. A cell of a division column that is read as
    text holds a text or is missing ([None], pandas' NaN). The other cells
    hold whatever the reader made of the text. *)
Record raw_row := {
  rr_player : list N;
  rr_division : option (list N);
  rr_team : pyval;
  rr_matches : pyval;
  rr_goals : pyval;
  rr_assists : pyval;
  rr_points : pyval;
  rr_penalty : pyval;
}.

(** The frame [pd.read_csv] makes of the appearance file: its rows, and
    whether the division column was read as text (dtype object). It is
    not when every cell of the column reads as a number or as missing; the
    division cells of the rows are not looked at then. *)
Record csv_frame := {
  division_text : bool;
  rows : list raw_row;
}.

(** The same row once [matches] went through [safe_int]. *)
Record app_rec := {
  a_player : list N;
  a_division : option (list N);
  a_team : pyval;
  a_matches : Z;
  a_goals : pyval;
  a_assists : pyval;
  a_points : pyval;
  a_penalty : pyval;
}.

(** A roster row: [r_position] is [None] when the frame has no such
    column; the other three are [VNone] then, as [row.get] gives. *)
Record roster_row := {
  r_namn : pyval;
  r_name : pyval;
  r_position : option pyval;
  r_href : pyval;
}.

(** A pivot table: row labels, column labels, and the cells row by row. *)
Record pivot := {
  p_index : list (list N);
  p_columns : list (list N);
  p_values : list (list Z);
}.

(** The range of the 64-bit integers of a frame whose values all fit
    them, and the value an integer wraps to. *)
Definition fits_int64 (z : Z) : bool :=
  ((- 2 ^ 63 <=? z) && (z <? 2 ^ 63))%Z.

Definition wrap64 (z : Z) : Z := ((z + 2 ^ 63) mod 2 ^ 64 - 2 ^ 63)%Z.

(** [.sum()] on 64-bit integers: every addition wraps. *)
Definition int64_sum (l : list Z) : Z :=
  foldr (λ x acc, wrap64 (x + acc)) 0%Z l.

Definition maxZ (l : list Z) : Z :=
  match l with
  | [] => 0%Z
  | x :: l' => foldr Z.max x l'
  end.

(** The distinct keys, in ascending order. *)
Definition sorted_keys (ks : list (list N)) : list (list N) :=
  merge_sort str_le (remove_dups ks).

Definition group (krow kcol : app_rec → option (list N))
    (df : list app_rec) (i c : list N) : list app_rec :=
  filter (λ r, krow r = Some i ∧ kcol r = Some c) df.

(** One cell: the aggregate of the values of its group, or the fill value
    when no row has that pair of keys. *)
Definition cell_value (krow kcol : app_rec → option (list N))
    (value : app_rec → Z) (aggfunc : list Z → Z) (fill_value : Z)
    (df : list app_rec) (i c : list N) : Z :=
  match group krow kcol df i c with
  | [] => fill_value
  | g => aggfunc (value <$> g)
  end.

(** [df.pivot_table(index=krow, columns=kcol, values=value,
    aggfunc=aggfunc, fill_value=fill_value)]. Rows with a missing key form
    no group. *)
Definition pivot_table (krow kcol : app_rec → option (list N))
    (value : app_rec → Z) (aggfunc : list Z → Z) (fill_value : Z)
    (df : list app_rec) : pivot :=
  let keyed := filter (λ r, is_Some (krow r) ∧ is_Some (kcol r)) df in
  let index := sorted_keys (omap krow keyed) in
  let columns := sorted_keys (omap kcol keyed) in
  {| p_index := index;
     p_columns := columns;
     p_values :=
       (λ i, cell_value krow kcol value aggfunc fill_value df i
             <$> columns) <$> index |}.

(** [pivot.empty] *)
Definition pivot_empty (p : pivot) : bool :=
  bool_decide (p_index p = []) || bool_decide (p_columns p = []).

(** [pivot.loc[label]] *)
Definition loc (p : pivot) (label : list N) : result (list Z) :=
  match list_find (λ l, l = label) (p_index p) with
  | Some (i, _) =>
      match p_values p !! i with
      | Some row => Ok row
      | None => Raise KeyError
      end
  | None => Raise KeyError
  end.

(** [pivot.loc[row, col]] *)
Definition cell (p : pivot) (row col : list N) : result Z :=
  cells ← loc p row;
  match list_find (λ l, l = col) (p_columns p) with
  | Some (j, _) =>
      match cells !! j with
      | Some v => Ok v
      | None => Raise KeyError
      end
  | None => Raise KeyError
  end.

Inductive message :=
| MsgColumns
| MsgSampleTitle
| MsgSampleRows
| MsgFetching (label : list N)
| MsgFetchFailed (label : list N) (e : exn)
| MsgNoAppearances
| MsgSavedCsv (path : list N)
| MsgNoDivisionData
| MsgSavedChart (path : list N)
| MsgMismatch (player : list N) (sum_matches total_matches : Z)
| MsgNoLeagueData
| MsgSavedLeagueChart (path : list N).

(** What a run does to the outside, in order. *)
Inductive event :=
| Stdout (m : message)
| Sleep
| WriteCsv (path : list N) (rows : list appearance)
| StackedChart (path : list N) (m : pivot)
| LeagueChart (path : list N) (m : pivot).

(** A computation that logs events and may raise. *)
Record run (A : Type) := Run {
  log : list event;
  outcome : result A;
}.
Arguments Run {A} log outcome.
Arguments log {A} r.
Arguments outcome {A} r.

#[export] Instance run_ret : MRet run := λ A a, Run [] (Ok a).
#[export] Instance run_bind : MBind run := λ A B f m,
  match outcome m with
  | Ok a => Run (log m ++ log (f a)) (outcome (f a))
  | Raise e => Run (log m) (Raise e)
  end.

Definition emit (e : event) : run unit := Run [e] (Ok tt).
Definition say (m : message) : run unit := emit (Stdout m).
Definition lift {A} (r : result A) : run A := Run [] r.

(** [try: body except Exception as e: handler(e)] *)
Definition try_except {A} (body : run A) (handler : exn → run A) : run A :=
  match outcome body with
  | Ok a => body
  | Raise e => Run (log body ++ log (handler e)) (outcome (handler e))
  end.

End Frame.

(** ** [analyze_trupp] *)

Module Pipeline.
Import Frame.

Definition BASE_URL : list N := lit "https://stats.innebandy.se".

Definition TOTALT : list N := lit "TOTALT".

(** [bool(v)] *)
Definition truthy (v : pyval) : bool :=
  match v with
  | VNone => false
  | VStr s => negb (is_empty s)
  | VInt z => negb (z =? 0)%Z
  | VFloat (FFinite m _) => negb (m =? 0)%Z
  | VFloat _ => true
  end.

(** [a or b] *)
Definition py_or (a b : pyval) : pyval := if truthy a then a else b.

Definition href_full (href : list N) : list N :=
  if starts_with (lit "/") href then BASE_URL ++ href
  else if starts_with (lit "http") href then href
  else BASE_URL ++ lit "/" ++ href.

(** [f"{out_prefix}name" if out_prefix else "name"] *)
Definition out_path (out_prefix name : list N) : list N :=
  if is_empty out_prefix then name else out_prefix ++ name.

Section Pipeline.
Context `{Runtime}.

(** [s.isdigit()] *)
Definition isdigit (s : list N) : bool :=
  negb (is_empty s) && forallb cp_isdigit s.

(** The position letter; [position.lower()] exists on strings only. *)
Definition pos_prefix (position : pyval) : result (list N) :=
  match position with
  | VStr s =>
      Ok (if contains (lit "forw") (str_lower s) then lit "F"
          else if contains (lit "back") (str_lower s) then lit "B"
          else if contains (lit "m" ++ [229%N] ++ lit "l") (str_lower s)
               then lit "M"
          else lit "?")
  | _ => Raise AttributeError
  end.

(** The guard of the inner loop: [not comp or comp.strip() == "" or
    comp.strip().isdigit()] makes the loop [continue]. *)
Definition skipped (comp : list N) : bool :=
  is_empty comp || is_empty (strip comp) || isdigit (strip comp).

Definition record_of (player_label : list N) (pr : Extractor.row_data)
  : appearance :=
  {| ap_player := player_label;
     ap_division := strip (Extractor.competition pr);
     ap_team := Extractor.team pr;
     ap_matches := Extractor.matches pr;
     ap_goals := Extractor.goals pr;
     ap_assists := Extractor.assists pr;
     ap_points := Extractor.points pr;
     ap_penalty := Extractor.penalty pr |}.

(** [for pr in player_rows: ...], appending to [appearances]. *)
Fixpoint append_rows (player_label : list N)
    (player_rows : list Extractor.row_data) (appearances : list appearance)
  : list appearance :=
  match player_rows with
  | [] => appearances
  | pr :: rest =>
      if skipped (Extractor.competition pr)
      then append_rows player_label rest appearances
      else append_rows player_label rest
             (appearances ++ [record_of player_label pr])
  end.

(** The browser: the page a URL leads to, or the failure navigating
    there. *)
Variable browse : list N → result Extractor.page.

(** The appearance file read back: the frame [pd.read_csv] makes of the
    rows just written. *)
Variable read_csv : list appearance → csv_frame.

(** What pandas and matplotlib make of the re-read rows, from line 356
    on, when some match count does not fit a 64-bit integer: the column is
    then unsigned or of Python integers, and sums, comparisons and the
    charts are theirs. Nothing is assumed of it. *)
Variable wide_stage : list N → list raw_row → run (list app_rec).

Definition fetch_player_appearances (href : list N)
  : result (list Extractor.row_data) :=
  p ← browse href;
  Extractor.page_rows p.

(** The loop over the roster. *)
Fixpoint collect (trupp : list roster_row) (appearances : list appearance)
  : run (list appearance) :=
  match trupp with
  | [] => mret appearances
  | row :: rest =>
      let name := py_or (r_namn row) (r_name row) in
      let position := default (VStr (lit "?")) (r_position row) in
      match r_href row with
      | VStr href =>
          if is_empty (strip href) then collect rest appearances
          else
            prefix ← lift (pos_prefix position);
            let player_label := prefix ++ lit "-" ++ py_format name in
            say (MsgFetching player_label);;
            appearances' ←
              try_except
                (player_rows ← lift (fetch_player_appearances (href_full href));
                 emit Sleep;;
                 mret (append_rows player_label player_rows appearances))
                (λ e, say (MsgFetchFailed player_label e);;
                      mret appearances);
            collect rest appearances'
      | _ => collect rest appearances
      end
  end.

Definition coerce (r : raw_row) : app_rec :=
  {| a_player := rr_player r;
     a_division := rr_division r;
     a_team := rr_team r;
     a_matches := Coerce.safe_int (rr_matches r);
     a_goals := rr_goals r;
     a_assists := rr_assists r;
     a_points := rr_points r;
     a_penalty := rr_penalty r |}.

(** [df["division"].str]: only a column read as text has the accessor. *)
Definition division_str (f : csv_frame) : result (list (option (list N))) :=
  if division_text f then Ok (rr_division <$> rows f)
  else Raise AttributeError.

(** One entry of [df["division"].str.upper() == "TOTALT"], on a text
    column; a missing division compares unequal. *)
Definition is_total (r : app_rec) : bool :=
  match a_division r with
  | Some d => bool_decide (str_upper d = TOTALT)
  | None => false
  end.

(** [division.notna() & (division != "") & (matches > 0)] *)
Definition kept (r : app_rec) : bool :=
  match a_division r with
  | Some d => negb (is_empty d) && (0 <? a_matches r)%Z
  | None => false
  end.

Definition played_flag (r : app_rec) : Z :=
  if (0 <? a_matches r)%Z then 1%Z else 0%Z.

(** The three frames of lines 347 to 353, on a text column. *)
Definition split_frames (df : list raw_row)
  : list app_rec * list app_rec :=
  let df_app := coerce <$> df in
  let df_total := filter (λ r, is_total r) df_app in
  let df_app := filter (λ r, negb (is_total r)) df_app in
  let df_app := filter (λ r, kept r) df_app in
  (df_total, df_app).

(** The player-by-division matrix of a frame whose match counts are
    64-bit integers. *)
Definition division_pivot (df_app : list app_rec) : pivot :=
  pivot_table (λ r, Some (a_player r)) a_division a_matches int64_sum 0
    df_app.

Definition league_pivot (df_app : list app_rec) : pivot :=
  pivot_table a_division (λ r, Some (a_player r)) played_flag maxZ 0 df_app.

(** The validation loop over [pivot.index]. *)
Fixpoint validate (pv : pivot) (df_total : list app_rec)
    (players : list (list N)) : run unit :=
  match players with
  | [] => mret tt
  | player :: rest =>
      match filter (λ r, a_player r = player) df_total with
      | [] => validate pv df_total rest
      | total_row :: _ =>
          let total_matches := a_matches total_row in
          cells ← lift (loc pv player);
          let sum_matches := int64_sum cells in
          (if bool_decide (total_matches ≠ sum_matches)
           then say (MsgMismatch player sum_matches total_matches)
           else mret tt);;
          validate pv df_total rest
      end
  end.

(** The stage from line 356 on, when every match count is a 64-bit
    integer. *)
Definition int64_stage (out_prefix : list N)
    (df_total df_app : list app_rec) : run (list app_rec) :=
  let pv := division_pivot df_app in
  if pivot_empty pv then say MsgNoDivisionData;; mret df_app
  else
    let pivot_plot := pv in
    let out := out_path out_prefix (lit "players_division_stack.png") in
    emit (StackedChart out pivot_plot);;
    say (MsgSavedChart out);;
    validate pv df_total (p_index pv);;
    let players_per_league := league_pivot df_app in
    if pivot_empty players_per_league
    then say MsgNoLeagueData;; mret df_app
    else
      let out2 := out_path out_prefix (lit "players_per_league_stack.png") in
      emit (LeagueChart out2 players_per_league);;
      say (MsgSavedLeagueChart out2);;
      mret df_app.

(** [analyze_trupp] from the re-read frame on. Neither [max_divisions] nor
    [max_leagues] is read by the body. The [.str] accessor raises on a
    division column that is not text. [matches.apply(safe_int)] gives a
    column of 64-bit integers when every count fits them; otherwise the
    column is of another dtype and the rest is [wide_stage]. *)
Definition pivot_stage (out_prefix : list N) (max_divisions max_leagues : Z)
    (f : csv_frame) : run (list app_rec) :=
  lift (division_str f);;
  let '(df_total, df_app) := split_frames (rows f) in
  if forallb (λ r, fits_int64 (a_matches (coerce r))) (rows f)
  then int64_stage out_prefix df_total df_app
  else wide_stage out_prefix (rows f).

Definition analyze_trupp (trupp : list roster_row) (out_prefix : list N)
    (max_divisions max_leagues : Z) : run (list app_rec) :=
  say MsgColumns;;
  say MsgSampleTitle;;
  say MsgSampleRows;;
  appearances ← collect trupp [];
  match appearances with
  | [] => say MsgNoAppearances;; mret []
  | _ =>
      let app_csv := out_path out_prefix (lit "appearances.csv") in
      emit (WriteCsv app_csv appearances);;
      say (MsgSavedCsv app_csv);;
      pivot_stage out_prefix max_divisions max_leagues (read_csv appearances)
  end.

End Pipeline.
End Pipeline.

(** ** A concrete runtime for the examples

    Exact on Latin-1 text (code points below 256); characters beyond are
    left as they are and count as neither digits nor decimals. *)

Module Latin1.

Definition lower_cp (c : N) : N :=
  if ((65 <=? c) && (c <=? 90)
      || (192 <=? c) && (c <=? 222) && negb (c =? 215))%N
  then (c + 32)%N else c.

(** Sharp s becomes two letters; the micro sign and y with diaeresis leave
    Latin-1. *)
Definition upper_cp (c : N) : list N :=
  if ((97 <=? c) && (c <=? 122)
      || (224 <=? c) && (c <=? 254) && negb (c =? 247))%N
  then [(c - 32)%N]
  else if (c =? 223)%N then [83%N; 83%N]
  else if (c =? 181)%N then [924%N]
  else if (c =? 255)%N then [376%N]
  else [c].

Definition isdigit_cp (c : N) : bool :=
  ((48 <=? c) && (c <=? 57) || (c =? 178) || (c =? 179) || (c =? 185))%N.

(** Strings, [None] and integers are rendered as Python does; the names of
    the examples are strings. *)
Definition format (v : pyval) : list N :=
  match v with
  | VStr s => s
  | VNone => lit "None"
  | VInt z => lit (pretty z)
  | VFloat FNan => lit "nan"
  | VFloat (FInf negative) => if negative then lit "-inf" else lit "inf"
  | VFloat (FFinite m e) => lit (pretty m) ++ lit "*2**" ++ lit (pretty e)
  end.

#[export] Instance runtime : Runtime := {|
  str_lower := fmap lower_cp;
  str_upper := λ s, s ≫= upper_cp;
  cp_isdigit := isdigit_cp;
  cp_decimal := λ _, None;
  py_format := format;
|}.

End Latin1.

(** ** The words of the specification *)

Module Spec.
Import Frame.




(** The sum of the specification, in the integers. *)
Definition exact_sum (l : list Z) : Z := foldr Z.add 0%Z l.

(** Every match count of the re-read frame, once coerced, fits a 64-bit
    integer. *)
Definition counts_fit `{Runtime} (df : list raw_row) : Prop :=
  Forall (λ r, fits_int64 (Coerce.safe_int (rr_matches r)) = true) df.

(** The match counts of the working frame, which are positive, add up to
    less than 2^63: no sum of them wraps. *)
Definition no_overflow (df_app : list app_rec) : Prop :=
  (exact_sum (a_matches <$> df_app) < 2 ^ 63)%Z.




(** The seven semantic fields of a row: the header each is found under,
    the position the specification falls back to, and the field itself. *)
Record field_desc := {
  f_key : list N;
  f_pos : nat;
  f_get : Extractor.row_data → list N;
}.

Definition fields : list field_desc :=
  [ {| f_key := Extractor.K_competition; f_pos := 0; f_get := Extractor.competition |};
    {| f_key := Extractor.K_team; f_pos := 1; f_get := Extractor.team |};
    {| f_key := Extractor.K_matches; f_pos := 2; f_get := Extractor.matches |};
    {| f_key := Extractor.K_goals; f_pos := 3; f_get := Extractor.goals |};
    {| f_key := Extractor.K_assists; f_pos := 4; f_get := Extractor.assists |};
    {| f_key := Extractor.K_points; f_pos := 5; f_get := Extractor.points |};
    {| f_key := Extractor.K_penalty; f_pos := 6; f_get := Extractor.penalty |} ].

(** The column a header name resolves to: the last header that is the
    name once lower-cased, counting from [i]. *)
Fixpoint header_index `{Runtime} (headers : list (list N)) (key : list N)
    (i : nat) : option nat :=
  match headers with
  | [] => None
  | h :: hs =>
      match header_index hs key (S i) with
      | Some j => Some j
      | None => if decide (str_lower h = key) then Some i else None
      end
  end.

(** A row the extractor does not skip. *)
Definition well_formed_row (headers : list (list N)) (tds : list (list N))
  : Prop :=
  tds ≠ [] ∧ length headers ≤ length tds.

(** The specification's column resolution: by header name, and by
    position when the name is not among the headers. *)
Definition positional_fallback `{Runtime} (headers : list (list N))
    (tds : list (list N)) (row : Extractor.row_data) : Prop :=
  Forall (λ f,
    match header_index headers (f_key f) 0 with
    | Some i => Some (f_get f row) = strip <$> tds !! i
    | None => Some (f_get f row) = strip <$> tds !! f_pos f
    end) fields.

(** What the extractor does: by header name, and the empty text when the
    name is not among the headers. *)
Definition by_header_only `{Runtime} (headers : list (list N))
    (tds : list (list N)) (row : Extractor.row_data) : Prop :=
  Forall (λ f,
    match header_index headers (f_key f) 0 with
    | Some i => Some (f_get f row) = strip <$> tds !! i
    | None => f_get f row = []
    end) fields.

(** A competition name the aggregator is to keep: not empty, not blank and
    not made of digits only. *)
Definition real_competition `{Runtime} (comp : list N) : bool :=
  negb (is_empty comp) && negb (isspace comp)
  && negb (Pipeline.isdigit comp).

(** The warning owed to [player]: the player has a TOTALT row and the
    match count of the first one differs from the sum of the player's cells;
    it names the sum and the TOTALT count. *)
Definition warning_of (pv : pivot) (df_total : list app_rec)
    (player : list N) : list event :=
  match filter (λ r, a_player r = player) df_total with
  | [] => []
  | total_row :: _ =>
      match Frame.loc pv player with
      | Ok cells =>
          if bool_decide (a_matches total_row ≠ int64_sum cells)
          then [Stdout (MsgMismatch player (int64_sum cells)
                          (a_matches total_row))]
          else []
      | Raise _ => []
      end
  end.

(** Stable sort by descending key: an element goes before the first one
    whose key is not above its own, so equal keys keep their order. *)
Fixpoint insert_desc {A} (key : A → Z) (x : A) (l : list A) : list A :=
  match l with
  | [] => [x]
  | y :: l' =>
      if (key y <=? key x)%Z then x :: l else y :: insert_desc key x l'
  end.

Definition sort_desc {A} (key : A → Z) (l : list A) : list A :=
  foldr (insert_desc key) [] l.

(** The total of column [j] and of a row. *)
Definition column_total (pv : pivot) (j : nat) : Z :=
  exact_sum ((λ row, default 0%Z (row !! j)) <$> p_values pv).

(** The cap of the specification: when there are more labels than a
    positive [cap], the [cap] labels of largest total, largest first;
    all the labels otherwise. *)
Definition top_labels (cap : Z) (labels : list (list N))
    (total : nat → Z) : list (list N) :=
  if ((0 <? cap) && (cap <? Z.of_nat (length labels)))%Z
  then take (Z.to_nat cap)
         (fst <$> sort_desc snd (imap (λ j l, (l, total j)) labels))
  else labels.

Definition capped_divisions (max_divisions : Z) (pv : pivot)
  : list (list N) :=
  top_labels max_divisions (p_columns pv) (column_total pv).

Definition capped_leagues (max_leagues : Z) (pv : pivot) : list (list N) :=
  top_labels max_leagues (p_index pv)
    (λ i, exact_sum (default [] (p_values pv !! i))).

(** The divisions of the matrix handed to each chart. *)
Fixpoint charted_divisions (l : list event) : option (list (list N)) :=
  match l with
  | [] => None
  | StackedChart _ m :: _ => Some (p_columns m)
  | _ :: l' => charted_divisions l'
  end.

Fixpoint charted_leagues (l : list event) : option (list (list N)) :=
  match l with
  | [] => None
  | LeagueChart _ m :: _ => Some (p_index m)
  | _ :: l' => charted_leagues l'
  end.




(** The reader of the examples: every cell comes back as the text that was
    written, and the division column as text. *)
Definition read_text (apps : list appearance) : csv_frame :=
  {| division_text := true;
     rows :=
       (λ a, {| rr_player := ap_player a;
                rr_division := Some (ap_division a);
                rr_team := VStr (ap_team a);
                rr_matches := VStr (ap_matches a);
                rr_goals := VStr (ap_goals a);
                rr_assists := VStr (ap_assists a);
                rr_points := VStr (ap_points a);
                rr_penalty := VStr (ap_penalty a) |}) <$> apps |}.

(** No example holds a count beyond 64 bits: their runs never get to the
    stage for such counts. *)
Definition no_wide_stage (out_prefix : list N) (df : list raw_row)
  : run (list app_rec) :=
  Run [] (Ok []).

(** A re-read frame with a text division column. *)
Definition text_frame (df : list raw_row) : csv_frame :=
  {| division_text := true; rows := df |}.

(** A row of a re-read frame with an integer match count, for the
    examples. *)
Definition raw (player division : list N) (matches : Z) : raw_row :=
  {| rr_player := player;
     rr_division := Some division;
     rr_team := VStr (lit "X");
     rr_matches := VInt matches;
     rr_goals := VInt 0;
     rr_assists := VInt 0;
     rr_points := VInt 0;
     rr_penalty := VInt 0 |}.

(** The site of the examples: one profile page, whose season table has the
    given body rows under the headers of the real site. *)
Definition profile_page (body : list (list (list N))) : Extractor.page :=
  let t := {| Extractor.thead :=
                Some [lit "T" ++ [228%N] ++ lit "vling"; lit "Lag";
                      lit "MA"];
              Extractor.tbody := body |} in
  {| Extractor.headings := [(lit "2025/26", Extractor.TableSibling t)];
     Extractor.tables := [t] |}.

Definition site (body : list (list (list N))) (url : list N)
  : result Extractor.page :=
  if bool_decide (url = Pipeline.BASE_URL ++ lit "/spelare/5")
  then Ok (profile_page body)
  else Raise (FetchError (lit "net::ERR_NAME_NOT_RESOLVED")).

Definition anna : roster_row :=
  {| r_namn := VNone;
     r_name := VStr (lit "Anna Svensson");
     r_position := Some (VStr (lit "forward"));
     r_href := VStr (lit "/spelare/5") |}.

End Spec.

(** ** Proof tools *)

(** Boolean tests on code points, read as arithmetic facts. *)
Ltac bool_to_prop :=
  repeat match goal with
         | H : _ = true |- _ =>
             first [ apply N.eqb_eq in H | apply N.leb_le in H
                   | apply N.ltb_lt in H | apply andb_true_iff in H
                   | apply orb_true_iff in H ]
         | H : _ = false |- _ =>
             first [ apply N.eqb_neq in H | apply N.leb_gt in H
                   | apply N.ltb_ge in H | apply andb_false_iff in H
                   | apply orb_false_iff in H ]
         | H : _ ∧ _ |- _ => destruct H
         | H : _ ∨ _ |- _ => destruct H
         end.


(** ** More words about the roster loop and the stage *)

Module Facts.
Import Frame.

(** A roster row the loop fetches: its link is a text that is not blank. *)
Definition has_link (row : roster_row) : Prop :=
  ∃ href, r_href row = VStr href ∧ is_empty (strip href) = false.

(** A roster row whose position, or the question mark standing in for a
    missing column, is a text. *)
Definition position_text (row : roster_row) : Prop :=
  ∃ s, default (VStr (lit "?")) (r_position row) = VStr s.

(** A player label: one of the four position letters, a hyphen, a name. *)
Definition labelled (a : appearance) : Prop :=
  ∃ letter name,
    letter ∈ [lit "F"; lit "B"; lit "M"; lit "?"]
    ∧ ap_player a = letter ++ lit "-" ++ name.

(** A division as the flat list holds it: trimmed, not empty, and not made
    of digits only. *)
Definition real_division `{Runtime} (a : appearance) : Prop :=
  ap_division a ≠ []
  ∧ strip (ap_division a) = ap_division a
  ∧ Pipeline.isdigit (ap_division a) = false.

(** What one roster row adds to the flat list: nothing without a link or
    when the fetch fails, the kept rows of the player's page otherwise. *)
Definition contribution `{Runtime}
    (browse : list N → result Extractor.page) (row : roster_row)
  : list appearance :=
  match r_href row with
  | VStr href =>
      if is_empty (strip href) then []
      else
        match Pipeline.pos_prefix
                (default (VStr (lit "?")) (r_position row)) with
        | Ok letter =>
            match Pipeline.fetch_player_appearances browse
                    (Pipeline.href_full href) with
            | Ok player_rows =>
                Pipeline.append_rows
                  (letter ++ lit "-"
                   ++ py_format (Pipeline.py_or (r_namn row) (r_name row)))
                  player_rows []
            | Raise _ => []
            end
        | Raise _ => []
        end
  | _ => []
  end.

Definition is_warning (e : event) : bool :=
  match e with
  | Stdout (MsgMismatch _ _ _) => true
  | _ => false
  end.


(** A list without the later copies of its elements. *)
Fixpoint first_occurrences {A} `{EqDecision A} (l : list A) : list A :=
  match l with
  | [] => []
  | x :: l' => x :: filter (λ y, y ≠ x) (first_occurrences l')
  end.

End Facts.

(** ** [scrape_playwright.scrape_generic_links] *)

Module Links.

(** An anchor the selector found. Reading its [href] attribute, which may
    be absent, or its text may fail. *)
Record anchor := {
  a_href : result (option (list N));
  a_text : result (list N);
}.

(** [{"text": txt, "href": href}] *)
Record link := {
  l_text : list N;
  l_href : list N;
}.

#[export] Instance link_eq_dec : EqDecision link.
Proof. solve_decision. Defined.

(** The loop over the anchors; a failure on one anchor skips that
    anchor. *)
Fixpoint scan (anchors : list anchor) (seen : gset (list N * list N))
    (rows : list link) : list link :=
  match anchors with
  | [] => rows
  | a :: rest =>
      match a_href a with
      | Raise _ => scan rest seen rows
      | Ok attribute =>
          let href := default [] attribute in
          match a_text a with
          | Raise _ => scan rest seen rows
          | Ok text =>
              let txt := strip text in
              if is_empty txt then scan rest seen rows
              else
                let key := (href, txt) in
                if decide (key ∈ seen) then scan rest seen rows
                else scan rest ({[key]} ∪ seen)
                       (rows ++ [{| l_text := txt; l_href := href |}])
          end
      end
  end.

(** The function on the anchors of the loaded page. *)
Definition scrape_generic_links (anchors : list anchor) : list link :=
  scan anchors ∅ [].

(** The link an anchor stands for, when it can be read and has a text. *)
Definition candidate (a : anchor) : option link :=
  match a_href a, a_text a with
  | Ok attribute, Ok text =>
      if is_empty (strip text) then None
      else Some {| l_text := strip text; l_href := default [] attribute |}
  | _, _ => None
  end.

End Links.

(** ** [scrape_playwright.scrape_roster] *)

Module Roster.
Import Frame.

(** A cell of the roster table: its text, and the first anchor inside it,
    if there is one, as the value of its [href] attribute, if it has
    one. *)
Record td := {
  td_text : list N;
  td_anchor : option (option (list N));
}.

Record table := {
  thead : option (list (list N));
  tbody : list (list td);
}.

Definition EXPAND_LESS : list N := lit "expand_less".
Definition UNFOLD_MORE : list N := lit "unfold_more".

(** [re.sub(r"(expand_less|unfold_more)", "", h)]: one scan from the left;
    [skip] counts the characters of a match still to drop. *)
Fixpoint remove_icons (skip : nat) (s : list N) : list N :=
  match s with
  | [] => []
  | c :: s' =>
      match skip with
      | S k => remove_icons k s'
      | O =>
          if starts_with EXPAND_LESS s || starts_with UNFOLD_MORE s
          then remove_icons 10 s'
          else c :: remove_icons 0 s'
      end
  end.

Definition K_NR : list N := lit "nr".
Definition K_NAMN : list N := lit "namn".
Definition K_NAME : list N := lit "name".
Definition K_POSITION : list N := lit "position".
Definition K_PLAYER_ID : list N := lit "player_id".
Definition K_HREF : list N := lit "href".

(** [l[i]] *)
Definition index {A} (l : list A) (i : nat) : result A :=
  match l !! i with
  | Some x => Ok x
  | None => Raise IndexError
  end.

(** [{h: i for i, h in enumerate(clean_headers)}] *)
Fixpoint idx_map_from (i : nat) (clean_headers : list (list N))
    (m : gmap (list N) nat) : gmap (list N) nat :=
  match clean_headers with
  | [] => m
  | h :: hs => idx_map_from (S i) hs (<[h := i]> m)
  end.

Definition idx_map (clean_headers : list (list N)) : gmap (list N) nat :=
  idx_map_from 0 clean_headers ∅.

(** [for h, i in idx_map.items(): row[h] = cols[i]] *)
Definition fill_row (im : gmap (list N) nat) (cols : list (list N))
  : result (gmap (list N) pyval) :=
  map_fold (λ h i acc,
              row ← acc;
              c ← index cols i;
              mret (<[h := VStr c]> row))
           (Ok ∅) im.

(** The body of the loop over the rows, for a row that is not skipped. *)
Definition scrape_row (im : gmap (list N) nat) (tds : list td)
  : result (gmap (list N) pyval) :=
  let cols := (λ cell, strip (td_text cell)) <$> tds in
  row ← fill_row im cols;
  c0 ← index cols 0;
  let row := <[K_PLAYER_ID := default (VStr c0) (row !! K_NR)]> row in
  c1 ← index cols 1;
  let row := <[K_NAME := default (VStr c1) (row !! K_NAMN)]> row in
  let row := <[K_POSITION := default VNone (row !! K_POSITION)]> row in
  a ← (if decide (is_Some (im !! K_NAMN))
       then cell ← index tds (default 1 (im !! K_NAMN)); mret (td_anchor cell)
       else mret None);
  let href := match a with
              | Some (Some h) => VStr h
              | _ => VNone
              end in
  mret (<[K_HREF := href]> row).

Fixpoint scrape_rows (im : gmap (list N) nat) (trs : list (list td))
    (rows : list (gmap (list N) pyval))
  : result (list (gmap (list N) pyval)) :=
  match trs with
  | [] => Ok rows
  | tds :: trs' =>
      if (length tds <? 2)%nat then scrape_rows im trs' rows
      else
        row ← scrape_row im tds;
        scrape_rows im trs' (rows ++ [row])
  end.

Section Roster.
Context `{Runtime}.

Definition clean_header (h : list N) : list N :=
  strip (remove_icons 0 (str_lower h)).

Definition clean_headers (t : table) : list (list N) :=
  match thead t with
  | Some ths => (λ th, clean_header (strip th)) <$> ths
  | None => []
  end.

Definition scrape_table (t : table) : result (list (gmap (list N) pyval)) :=
  scrape_rows (idx_map (clean_headers t)) (tbody t) [].

(** The function on the first table of the loaded page, if there is one;
    the result is the list of rows the frame is made of. *)
Definition scrape_roster (first_table : option table)
  : result (list (gmap (list N) pyval)) :=
  match first_table with
  | Some t => scrape_table t
  | None => Ok []
  end.

End Roster.

(** A row of the frame made of these rows, as [analyze_trupp] reads it with
    [row.get]. *)
Definition roster_row_of (row : gmap (list N) pyval) : roster_row :=
  {| r_namn := default VNone (row !! K_NAMN);
     r_name := default VNone (row !! K_NAME);
     r_position := row !! K_POSITION;
     r_href := default VNone (row !! K_HREF) |}.

End Roster.

(** ** [processing.clean_trupp] *)

Module Clean.
Import Frame.

(** A frame: the labels of its columns, whose order this code does not
    use, and its rows as maps from column to cell. A cell a row does not
    hold reads as NaN. *)
Record frame := {
  f_columns : gset (list N);
  f_rows : list (gmap (list N) pyval);
}.

Definition NAME : list N := lit "name".

(** [pd.DataFrame(rows)] on a list of dicts: the columns are the keys of
    the rows. *)
Definition data_frame (rows : list (gmap (list N) pyval)) : frame :=
  {| f_columns := ⋃ (dom <$> rows); f_rows := rows |}.

(** [df.empty] *)
Definition frame_empty (df : frame) : bool :=
  bool_decide (f_columns df = ∅) || bool_decide (f_rows df = []).

Definition cell_of (row : gmap (list N) pyval) (column : list N) : pyval :=
  default (VFloat FNan) (row !! column).

Section Clean.
Variable nfkc : list N → list N.

(** [normalize_name] on a cell: what is falsy is returned as it is, and
    [unicodedata.normalize] takes strings only. *)
Definition normalize_cell (name : pyval) : result pyval :=
  if negb (Pipeline.truthy name) then Ok name
  else
    match name with
    | VStr s => Ok (VStr (Processing.normalize_name nfkc s))
    | _ => Raise TypeError
    end.

(** [df["name"] = df["name"].apply(normalize_name)] *)
Fixpoint apply_name (rows : list (gmap (list N) pyval))
  : result (list (gmap (list N) pyval)) :=
  match rows with
  | [] => Ok []
  | row :: rest =>
      v ← normalize_cell (cell_of row NAME);
      rest' ← apply_name rest;
      mret (<[NAME := v]> row :: rest')
  end.

Definition clean_trupp (df : option frame) : result (option frame) :=
  match df with
  | None => Ok None
  | Some f =>
      if frame_empty f then Ok df
      else if decide (NAME ∈ f_columns f)
      then
        rows ← apply_name (f_rows f);
        mret (Some {| f_columns := f_columns f; f_rows := rows |})
      else Ok df
  end.

End Clean.
End Clean.

(** ** Words about the roster table *)

Module Table.
Import Frame Roster.

(** A row of the table body the loop does not skip. *)
Definition kept_row (tds : list td) : Prop := 2 ≤ length tds.

(** The text of the [i]th cell of a row, trimmed, as a cell of the
    frame. *)
Definition text_at (tds : list td) (i : nat) : option pyval :=
  (λ cell, VStr (strip (td_text cell))) <$> tds !! i.

(** The [href] of the first anchor of the [i]th cell, [None] when the cell
    has no anchor or the anchor has no such attribute. *)
Definition link_at (tds : list td) (i : nat) : pyval :=
  match td_anchor <$> tds !! i with
  | Some (Some (Some href)) => VStr href
  | _ => VNone
  end.

(** The keys the loop sets after the header columns. *)
Definition reserved : list (list N) :=
  [K_PLAYER_ID; K_NAME; K_POSITION; K_HREF].

(** What a row of the result holds, given the index of each header. *)
Definition reads (im : gmap (list N) nat) (tds : list td)
    (row : gmap (list N) pyval) : Prop :=
  map_Forall (λ _ i, i < length tds) im
  ∧ (∀ h, h ∉ reserved → row !! h = im !! h ≫= text_at tds)
  ∧ row !! K_PLAYER_ID = text_at tds (default 0 (im !! K_NR))
  ∧ row !! K_NAME = text_at tds (default 1 (im !! K_NAMN))
  ∧ row !! K_POSITION
    = Some (default VNone (im !! K_POSITION ≫= text_at tds))
  ∧ row !! K_HREF
    = Some (from_option (link_at tds) VNone (im !! K_NAMN)).

(** A row of the table body that gives a player with a link: a kept row
    whose cell under [namn] holds an anchor with a link that is not
    blank. *)
Definition linked (im : gmap (list N) nat) (tds : list td) : Prop :=
  kept_row tds
  ∧ ∃ i href, im !! K_NAMN = Some i ∧ link_at tds i = VStr href
      ∧ is_empty (strip href) = false.

End Table.

(** ** [analyze_players._looks_like_division] *)

Module Division.

Definition tokens : list (list N) :=
  [lit "herr"; lit "junior"; lit "p09"; lit "p-09"; lit "p10"; lit "flick";
   lit "allsvenskan"; lit "division"; lit "serie"; lit "jun"; lit "9-manna";
   lit "7-manna"].

(** The letters of the class [[A-ZÅÄÖ0-9\- ]]. *)
Definition capital (c : N) : bool :=
  ((65 <=? c) && (c <=? 90) || (c =? 197) || (c =? 196) || (c =? 214))%N.

Definition code_char (c : N) : bool :=
  (capital c || (48 <=? c) && (c <=? 57) || (c =? 45) || (c =? 32))%N.

(** [[A-ZÅÄÖ0-9\- ]{1,12}] on a whole text. *)
Definition code (body : list N) : bool :=
  (1 <=? length body)%nat && (length body <=? 12)%nat
  && forallb code_char body.

(** [re.match(r"^[A-ZÅÄÖ0-9\- ]{1,12}$", text)]: [$] matches at the end of
    the text, and before a newline that ends the text. *)
Definition short_code (text : list N) : bool :=
  code text
  || match reverse text with
     | c :: body => (c =? 10)%N && code (reverse body)
     | [] => false
     end.

Section Division.
Context `{Runtime}.

Definition looks_like_division (text : list N) : bool :=
  if is_empty text then false
  else
    let text := str_lower text in
    if existsb (λ t, contains t text) tokens then true
    else short_code text && existsb cp_isdigit text.

End Division.
End Division.

(** * Properties *)

(** The examples below run on the Latin-1 runtime. *)
Import Latin1.

(** ** Strings *)

Section StringFacts.

Lemma lstrip_fixed s :
  match s with [] => True | c :: _ => nonspace c end → lstrip s = s.
Proof. destruct s as [|c s]; simpl; [done|]. intros ->. done. Qed.

Lemma rstrip_fixed s :
  match reverse s with [] => True | c :: _ => nonspace c end → rstrip s = s.
Proof.
  intros Hs. unfold rstrip. rewrite lstrip_fixed by done.
  apply reverse_involutive.
Qed.

Lemma split_from_nonspace t cur rest :
  Forall nonspace t →
  split_from cur (t ++ rest) = split_from (reverse t ++ cur) rest.
Proof.
  intros Ht. revert cur. induction Ht as [|c t Hc _ IH]; intros cur; [done|].
  simpl. rewrite Hc, IH, reverse_cons, <- app_assoc. done.
Qed.

Lemma split_from_words cur s :
  Forall nonspace cur → Forall word (split_from cur s).
Proof.
  revert cur. induction s as [|c s IH]; intros cur Hcur; simpl.
  - destruct cur as [|x cur]; [constructor|].
    constructor; [|constructor]. split.
    + rewrite reverse_cons. by destruct (reverse cur).
    + by apply Forall_reverse.
  - destruct (cp_isspace c) eqn:Hc.
    + destruct cur as [|x cur]; [by apply IH|].
      constructor; [|by apply IH]. split.
      * rewrite reverse_cons. by destruct (reverse cur).
      * by apply Forall_reverse.
    + apply IH. by constructor.
Qed.

Lemma split_words s : Forall word (split s).
Proof. by apply split_from_words. Qed.

Lemma join_cons2 sep t u ws :
  join sep (t :: u :: ws) = t ++ sep ++ join sep (u :: ws).
Proof. done. Qed.

Lemma split_from_end cur : cur ≠ [] → split_from cur [] = [reverse cur].
Proof. by destruct cur. Qed.

Lemma split_from_space cur rest :
  cur ≠ [] →
  split_from cur (SPACE :: rest) = reverse cur :: split_from [] rest.
Proof. by destruct cur. Qed.

Lemma reverse_not_nil {A} (l : list A) : l ≠ [] → reverse l ≠ [].
Proof.
  intros Hl Hr. apply Hl. rewrite <- (reverse_involutive l), Hr. done.
Qed.

Lemma split_join_words ws :
  Forall word ws → split (join [SPACE] ws) = ws.
Proof.
  unfold split. induction 1 as [|t ws [Hne Ht] Hws IH]; [done|].
  destruct ws as [|u ws].
  - simpl. rewrite <- (app_nil_r t), split_from_nonspace by done.
    rewrite !app_nil_r, split_from_end by by apply reverse_not_nil.
    by rewrite reverse_involutive.
  - rewrite join_cons2, split_from_nonspace by done.
    rewrite app_nil_r. change ([SPACE] ++ ?l) with (SPACE :: l).
    rewrite split_from_space by by apply reverse_not_nil.
    by rewrite reverse_involutive, IH.
Qed.

Lemma join_words_head ws :
  Forall word ws →
  match join [SPACE] ws with [] => True | c :: _ => nonspace c end.
Proof.
  destruct 1 as [|t ws [Hne Ht] Hws]; [done|].
  destruct t as [|c t]; [done|]. inversion Ht; subst.
  destruct ws; done.
Qed.

Lemma join_words_last ws :
  Forall word ws →
  match reverse (join [SPACE] ws) with [] => True | c :: _ => nonspace c end.
Proof.
  induction 1 as [|t ws [Hne Ht] Hws IH]; [done|].
  destruct ws as [|u ws].
  - simpl. apply Forall_reverse in Ht. by destruct Ht.
  - rewrite join_cons2, !reverse_app.
    destruct (reverse (join [SPACE] (u :: ws))) eqn:Hr; [|done].
    apply (f_equal reverse) in Hr. rewrite reverse_involutive in Hr.
    inversion Hws as [|? ? [Hu _] _]; subst.
    destruct u; [done|]. destruct ws; done.
Qed.

Lemma strip_join_words ws :
  Forall word ws → strip (join [SPACE] ws) = join [SPACE] ws.
Proof.
  intros Hws. unfold strip.
  rewrite lstrip_fixed by by apply join_words_head.
  apply rstrip_fixed. by apply join_words_last.
Qed.

Lemma single_spaced_nonspace t rest :
  Forall nonspace t → single_spaced (t ++ rest) = single_spaced rest.
Proof.
  induction 1 as [|c t Hc _ IH]; [done|].
  simpl. rewrite Hc, IH. done.
Qed.

Lemma single_spaced_join ws :
  Forall word ws → single_spaced (join [SPACE] ws) = true.
Proof.
  induction 1 as [|t ws [Hne Ht] Hws IH]; [done|].
  destruct ws as [|u ws].
  - simpl. rewrite <- (app_nil_r t), single_spaced_nonspace; done.
  - rewrite join_cons2, single_spaced_nonspace by done.
    pose proof (join_words_head _ Hws) as Hh.
    change ([SPACE] ++ ?l) with (SPACE :: l).
    cbn [single_spaced]. rewrite IH.
    destruct (join [SPACE] (u :: ws)); [done|].
    rewrite Hh. done.
Qed.

End StringFacts.

(** ** Name normalisation *)

Section Substrings.

(** Trimming and splitting only return pieces of the text. *)
Lemma lstrip_suffix s : ∃ a, s = a ++ lstrip s.
Proof.
  induction s as [|c s [a IH]]; [by exists []|]. simpl.
  destruct (cp_isspace c); [|by exists []].
  exists (c :: a). simpl. by rewrite <- IH.
Qed.

Lemma strip_substring s : ∃ a c, s = a ++ strip s ++ c.
Proof.
  destruct (lstrip_suffix s) as [a Ha].
  destruct (lstrip_suffix (reverse (lstrip s))) as [c Hc].
  exists a, (reverse c). unfold strip, rstrip.
  rewrite <- reverse_app, <- Hc, reverse_involutive. done.
Qed.

Lemma split_from_substring cur s w :
  w ∈ split_from cur s → ∃ a c, reverse cur ++ s = a ++ w ++ c.
Proof.
  revert cur. induction s as [|ch s IH]; intros cur; simpl.
  - destruct cur as [|x cur]; [by intros ?%elem_of_nil|].
    intros ->%list_elem_of_singleton. exists [], []. by rewrite !app_nil_r.
  - destruct (cp_isspace ch).
    + destruct cur as [|x cur].
      * intros (a & c & Hs)%IH. exists (ch :: a), c.
        rewrite reverse_nil in *. simpl in *. by rewrite Hs.
      * intros [-> | (a & c & Hs)%IH]%elem_of_cons.
        -- by exists [], (ch :: s).
        -- exists (reverse (x :: cur) ++ ch :: a), c.
           rewrite reverse_nil in Hs. simpl in Hs.
           by rewrite Hs, <- app_assoc.
    + intros (a & c & Hs)%IH. exists a, c.
      rewrite <- Hs, reverse_cons, <- app_assoc. done.
Qed.

Lemma split_substring s w : w ∈ split s → ∃ a c, s = a ++ w ++ c.
Proof. intros Hw. by apply (split_from_substring []) in Hw. Qed.

End Substrings.

Section NormalizeName.
Import Processing.

Variable nfkc : list N → list N.

(** What is used of NFKC: normalising twice changes nothing; a piece of a
    normalised text is normalised; two normalised texts joined by a space are
    a normalised text. *)
Hypothesis nfkc_idempotent : ∀ s, nfkc (nfkc s) = nfkc s.
Hypothesis nfkc_substring : ∀ a b c,
  nfkc (a ++ b ++ c) = a ++ b ++ c → nfkc b = b.
Hypothesis nfkc_space : ∀ a b,
  nfkc a = a → nfkc b = b → nfkc (a ++ [SPACE] ++ b) = a ++ [SPACE] ++ b.

Lemma nfkc_empty : nfkc [] = [].
Proof. apply (nfkc_substring [] [] (nfkc [])). simpl. apply nfkc_idempotent. Qed.

Lemma nfkc_join ws :
  Forall (λ w, nfkc w = w) ws → nfkc (join [SPACE] ws) = join [SPACE] ws.
Proof.
  induction 1 as [|t ws Ht Hws IH]; [apply nfkc_empty|].
  destruct ws as [|u ws]; [done|].
  rewrite join_cons2. by apply nfkc_space.
Qed.

(** A normalised text stays normalised when its whitespace is trimmed and
    collapsed to single spaces. *)
Lemma nfkc_collapse s :
  nfkc s = s →
  nfkc (join [SPACE] (split (strip s))) = join [SPACE] (split (strip s)).
Proof.
  intros Hs. apply nfkc_join, Forall_forall. intros w Hw.
  destruct (split_substring _ _ Hw) as (a & c & Hstrip).
  destruct (strip_substring s) as (a' & c' & Hsub).
  apply (nfkc_substring a w c). rewrite <- Hstrip.
  apply (nfkc_substring a' (strip s) c'). by rewrite <- Hsub.
Qed.

Lemma normalize_name_words s :
  s ≠ [] →
  ∃ ws, Forall word ws ∧ normalize_name nfkc s = join [SPACE] ws
        ∧ ws = split (strip (nfkc s)).
Proof.
  intros Hs. exists (split (strip (nfkc s))). split; [apply split_words|].
  unfold normalize_name. by destruct s.
Qed.

Lemma normalize_name_of_normal ws :
  Forall word ws →
  nfkc (join [SPACE] ws) = join [SPACE] ws →
  normalize_name nfkc (join [SPACE] ws) = join [SPACE] ws.
Proof.
  intros Hws Hn. unfold normalize_name.
  destruct (is_empty (join [SPACE] ws)); [done|].
  rewrite Hn, strip_join_words, split_join_words; done.
Qed.

(** C10: [normalize_name] is idempotent, and its result is stripped,
    NFKC-normalised and has no whitespace other than single spaces. *)
Theorem normalize_name_idempotent (s : list N) :
  let r := normalize_name nfkc s in
  normalize_name nfkc r = r
  ∧ strip r = r
  ∧ nfkc r = r
  ∧ single_spaced r = true.
Proof.
  destruct s as [|c s]; [by repeat split; try apply nfkc_empty|].
  destruct (normalize_name_words (c :: s)) as (ws & Hws & Hr & Heq); [done|].
  cbv zeta. rewrite Hr.
  assert (nfkc (join [SPACE] ws) = join [SPACE] ws) as Hn.
  { rewrite Heq. apply nfkc_collapse, nfkc_idempotent. }
  split; [by apply normalize_name_of_normal|].
  split; [by apply strip_join_words|].
  split; [done|]. by apply single_spaced_join.
Qed.

End NormalizeName.

(** The character-wise fragment of NFKC meets the three assumptions. *)
Section Fragment.
Import Processing.

Lemma nfkc_cp_idempotent c : nfkc_cp (nfkc_cp c) = nfkc_cp c.
Proof.
  unfold nfkc_cp, SPACE.
  repeat match goal with
         | |- context [if ?b then _ else _] => destruct b eqn:?
         end; try done; bool_to_prop; lia.
Qed.

Lemma nfkc_fragment_fixed s :
  nfkc_fragment s = s ↔ Forall (λ c, nfkc_cp c = c) s.
Proof.
  unfold nfkc_fragment. induction s as [|c s IH]; [done|].
  rewrite fmap_cons, Forall_cons. split.
  - intros [= Hc Hs]. by rewrite <- IH.
  - intros [Hc Hs]. f_equal; [done | by apply IH].
Qed.

Lemma nfkc_fragment_idempotent s :
  nfkc_fragment (nfkc_fragment s) = nfkc_fragment s.
Proof.
  apply nfkc_fragment_fixed. unfold nfkc_fragment.
  apply Forall_fmap, Forall_true. intros c. apply nfkc_cp_idempotent.
Qed.

Lemma nfkc_fragment_substring a b c :
  nfkc_fragment (a ++ b ++ c) = a ++ b ++ c → nfkc_fragment b = b.
Proof.
  rewrite !nfkc_fragment_fixed, !Forall_app. by intros (_ & Hb & _).
Qed.

Lemma nfkc_fragment_space a b :
  nfkc_fragment a = a → nfkc_fragment b = b →
  nfkc_fragment (a ++ [SPACE] ++ b) = a ++ [SPACE] ++ b.
Proof.
  rewrite !nfkc_fragment_fixed, !Forall_app. intros Ha Hb.
  split; [done|]. split; [by constructor | done].
Qed.

End Fragment.

(** [normalize_name] on a name with a leading blank, a no-break space
    before a blank, and a trailing blank. *)
Lemma normalize_name_idempotent_witness :
  let s := lit " Anna" ++ [160%N] ++ lit " Svensson " in
  let r := Processing.normalize_name Processing.nfkc_fragment s in
  r = lit "Anna Svensson"
  ∧ Processing.normalize_name Processing.nfkc_fragment r = r
  ∧ strip r = r
  ∧ Processing.nfkc_fragment r = r
  ∧ single_spaced r = true.
Proof.
  split; [vm_compute; reflexivity|].
  exact (normalize_name_idempotent Processing.nfkc_fragment
           nfkc_fragment_idempotent nfkc_fragment_substring
           nfkc_fragment_space
           (lit " Anna" ++ [160%N] ++ lit " Svensson ")).
Defined.

(** ** Numeric coercion *)

Section SafeInt.
Import Coerce Spec.
Context `{Runtime}.

Lemma safe_int_ok x z : py_int x = Ok z → safe_int x = z.
Proof. unfold safe_int. by intros ->. Qed.

















End SafeInt.

(** [safe_int] on cells as a frame holds them. *)
Example safe_int_cells :
  Coerce.safe_int <$>
    [ VStr (lit "12"); VStr (lit " 42 "); VStr (lit "-7"); VStr (lit "1_000");
      VStr (lit "3.5"); VStr (lit "abc"); VStr []; VStr (lit "1__0");
      VInt 9; VFloat (FFinite 7 (-1)); VFloat (FFinite (-7) (-1));
      VFloat FNan; VFloat (FInf false); VNone ]
  = [12; 42; -7; 1000; 0; 0; 0; 0; 9; 3; -3; 0; 0; 0]%Z.
Proof. reflexivity. Qed.

(** ** The row extractor *)

Section Extractor.
Import Extractor Spec.
Context `{Runtime}.

Lemma header_index_bounds headers key i j :
  header_index headers key i = Some j →
  i ≤ j < i + length headers
  ∧ (str_lower <$> headers) !! (j - i) = Some key.
Proof.
  revert i. induction headers as [|h hs IH]; intros i; simpl; [done|].
  destruct (header_index hs key (S i)) as [j'|] eqn:Hhs.
  - intros [= <-]. destruct (IH _ Hhs) as [Hj Hl]. split; [lia|].
    replace (j' - i) with (S (j' - S i)) by lia. done.
  - case_decide as Hk; [|done]. intros [= <-]. split; [lia|].
    rewrite Nat.sub_diag. simpl. by rewrite Hk.
Qed.

Lemma header_index_None headers key i :
  header_index headers key i = None ↔ key ∉ str_lower <$> headers.
Proof.
  revert i. induction headers as [|h hs IH]; intros i; simpl.
  - split; [intros _; apply not_elem_of_nil | done].
  - rewrite not_elem_of_cons, <- (IH (S i)).
    destruct (header_index hs key (S i)).
    + split; [done | intros [_ Hn]; by apply Hn].
    + case_decide as Hk; split.
      * done.
      * intros [Hn _]. by destruct Hn.
      * intros _. split; [congruence | done].
      * done.
Qed.

Lemma col_map_from_lookup (i : nat) (headers : list (list N))
    (m : gmap (list N) nat) (key : list N) :
  col_map_from i headers m !! key
  = match header_index headers key i with
    | Some j => Some j
    | None => m !! key
    end.
Proof.
  revert i m. induction headers as [|h hs IH]; intros i m; simpl; [done|].
  rewrite IH. destruct (header_index hs key (S i)); [done|].
  rewrite lookup_insert. by repeat case_decide.
Qed.

Lemma col_map_lookup (headers : list (list N)) (key : list N) :
  col_map headers !! key = header_index headers key 0.
Proof.
  unfold col_map. rewrite col_map_from_lookup, lookup_empty.
  by destruct (header_index headers key 0).
Qed.

(** One field of a row that is not skipped: read by header name, empty when
    the name is not a header; the index is always within the row. *)
Lemma field_by_header headers tds key dflt :
  length headers ≤ length tds →
  ∃ text, field (col_map headers) tds key dflt = Ok text
    ∧ match header_index headers key 0 with
      | Some i => Some text = strip <$> tds !! i
      | None => text = []
      end.
Proof.
  intros Hlen. unfold field. rewrite col_map_lookup.
  destruct (header_index headers key 0) as [i|] eqn:Hi.
  - apply header_index_bounds in Hi as [Hi _].
    destruct (lookup_lt_is_Some_2 tds i) as [td Htd]; [lia|].
    destruct (decide (is_Some (Some i))) as [_|Hn]; [|by destruct Hn].
    simpl. rewrite Htd. by eexists.
  - destruct (decide (is_Some (@None nat))) as [[? ?]|_]; [done|].
    by eexists.
Qed.

Lemma extract_row_by_header headers tds :
  length headers ≤ length tds →
  ∃ row, extract_row (col_map headers) tds = Ok row
         ∧ by_header_only headers tds row.
Proof.
  intros Hlen. unfold extract_row.
  destruct (field_by_header headers tds K_competition 0 Hlen) as (c & -> & Hc).
  destruct (field_by_header headers tds K_team 1 Hlen) as (t & -> & Ht).
  destruct (field_by_header headers tds K_matches 2 Hlen) as (m & -> & Hm).
  destruct (field_by_header headers tds K_goals 3 Hlen) as (g & -> & Hg).
  destruct (field_by_header headers tds K_assists 4 Hlen) as (a & -> & Ha).
  destruct (field_by_header headers tds K_points 5 Hlen) as (p & -> & Hp).
  destruct (field_by_header headers tds K_penalty 6 Hlen) as (u & -> & Hu).
  eexists. split; [reflexivity|].
  unfold by_header_only, fields. by repeat constructor.
Qed.

Lemma extract_rows_by_header headers trs acc :
  ∃ rows,
    extract_rows (col_map headers) (length headers) trs acc = Ok (acc ++ rows)
    ∧ Forall2 (by_header_only headers)
        (filter (well_formed_row headers) trs) rows.
Proof.
  revert acc. induction trs as [|tds trs IH]; intros acc; simpl.
  - exists []. by rewrite app_nil_r.
  - destruct (bool_decide (tds = []) || (length tds <? length headers))
      eqn:Hskip.
    + destruct (IH acc) as (rows & -> & Hrows). exists rows. split; [done|].
      rewrite filter_cons_False; [done|]. intros [Hne Hlen].
      apply orb_true_iff in Hskip as [Hs%bool_decide_eq_true | Hs%Nat.ltb_lt];
        [done | lia].
    + apply orb_false_iff in Hskip as [Hne%bool_decide_eq_false Hlen%Nat.ltb_ge].
      destruct (extract_row_by_header headers tds Hlen) as (row & -> & Hrow).
      simpl. destruct (IH (acc ++ [row])) as (rows & -> & Hrows).
      exists (row :: rows). rewrite <- app_assoc. split; [done|].
      rewrite filter_cons_True by done. by constructor.
Qed.

(** C2, as the extractor does it: every row of a table that is not
    skipped yields a record, and each of its seven fields is the trimmed
    text of the cell under the field's header (the last header that is its
    name once lower-cased), or the empty text when no header has that name.
    The positional index is never used. *)
Theorem extract_table_by_header (t : html_table) :
  ∃ rows,
    extract_table t = Ok rows
    ∧ Forall2 (by_header_only (headers_of t))
        (filter (well_formed_row (headers_of t)) (tbody t)) rows
    ∧ (∀ key, col_map (headers_of t) !! key
              = header_index (headers_of t) key 0)
    ∧ (∀ key, header_index (headers_of t) key 0 = None
              ↔ key ∉ str_lower <$> headers_of t).
Proof.
  destruct (extract_rows_by_header (headers_of t) (tbody t) [])
    as (rows & Hrows & Hall).
  exists rows. split; [done|]. split; [done|].
  split; [apply col_map_lookup|].
  intros key. apply header_index_None.
Qed.

End Extractor.

(** A table without a header row and one row of seven cells: the record
    has seven empty fields, not the texts of the cells. *)
Lemma positional_fallback_counterexample :
  let tds := [lit "Div1"; lit "X"; lit "3"; lit "1"; lit "2"; lit "3";
              lit "0"] in
  let t := {| Extractor.thead := None; Extractor.tbody := [tds] |} in
  let row := {| Extractor.competition := []; Extractor.team := [];
                Extractor.matches := []; Extractor.goals := [];
                Extractor.assists := []; Extractor.points := [];
                Extractor.penalty := [] |} in
  Extractor.extract_table t = Ok [row]
  ∧ ¬ Spec.positional_fallback (Extractor.headers_of t) tds row.
Proof.
  split; [reflexivity|].
  intros Hf. apply Forall_inv in Hf. simpl in Hf. discriminate Hf.
Qed.

(** ** The appearance aggregator *)

Section Aggregator.
Import Extractor Spec Frame Pipeline.
Context `{Runtime}.

Lemma lstrip_head s :
  match lstrip s with [] => True | c :: _ => nonspace c end.
Proof.
  induction s as [|c s IH]; simpl; [done|].
  by destruct (cp_isspace c) eqn:Hc.
Qed.

Lemma lstrip_snoc_nonspace s x :
  nonspace x → ∃ s', lstrip (s ++ [x]) = s' ++ [x].
Proof.
  intros Hx. induction s as [|c s IH]; simpl.
  - rewrite Hx. by exists [].
  - destruct (cp_isspace c); [done|]. by exists (c :: s).
Qed.

Lemma rstrip_head s :
  match s with [] => True | c :: _ => nonspace c end →
  match rstrip s with [] => True | c :: _ => nonspace c end.
Proof.
  destruct s as [|c s]; [done|]. intros Hc. unfold rstrip.
  rewrite reverse_cons.
  destruct (lstrip_snoc_nonspace (reverse s) c Hc) as [s' ->].
  by rewrite reverse_app.
Qed.

Lemma strip_idempotent s : strip (strip s) = strip s.
Proof.
  unfold strip at 1.
  rewrite lstrip_fixed by apply rstrip_head, lstrip_head.
  apply rstrip_fixed. unfold strip, rstrip.
  rewrite reverse_involutive. apply lstrip_head.
Qed.

Lemma stripped_not_blank s :
  strip s = s → s ≠ [] → forallb cp_isspace s = false.
Proof.
  intros Hs Hne.
  assert (match reverse s with [] => True | c :: _ => nonspace c end) as Hlast.
  { rewrite <- Hs. unfold strip, rstrip.
    rewrite reverse_involutive. apply lstrip_head. }
  destruct (reverse s) as [|c r] eqn:Hr; [by apply reverse_not_nil in Hne|].
  apply not_true_is_false. intros Hall.
  rewrite forallb_forall in Hall. specialize (Hall c).
  unfold nonspace in Hlast. rewrite Hall in Hlast; [done|].
  apply list_elem_of_In, elem_of_reverse. rewrite Hr. by left.
Qed.

(** On trimmed text the guard of the loop is the negation of the
    specification's filter. *)
Lemma skipped_stripped comp :
  strip comp = comp → skipped comp = negb (real_competition comp).
Proof.
  intros Hs. unfold skipped, real_competition, isspace. rewrite Hs.
  destruct comp as [|c comp]; [done|].
  rewrite stripped_not_blank by done. simpl.
  by destruct (isdigit (c :: comp)).
Qed.

Lemma by_header_only_stripped headers tds row :
  by_header_only headers tds row → strip (competition row) = competition row.
Proof.
  intros Hrow. apply Forall_inv in Hrow. simpl in Hrow.
  destruct (header_index headers K_competition 0) as [i|].
  - destruct (tds !! i) as [td|]; [|done].
    injection Hrow as ->. apply strip_idempotent.
  - by rewrite Hrow.
Qed.

Lemma page_rows_stripped p rows :
  page_rows p = Ok rows →
  Forall (λ pr, strip (competition pr) = competition pr) rows.
Proof.
  unfold page_rows.
  destruct (select_table p) as [[t|]|]; cbn [mbind result_bind];
    [|by intros [= <-]|done].
  unfold extract_table.
  destruct (extract_rows_by_header (headers_of t) (tbody t) [])
    as (rows' & -> & Hall).
  intros [= <-]. clear -Hall.
  induction Hall as [|tds row trs rows Hrow _ IH]; constructor; [|done].
  by eapply by_header_only_stripped.
Qed.

Lemma append_rows_filter label rows acc :
  Forall (λ pr, strip (competition pr) = competition pr) rows →
  append_rows label rows acc
  = acc ++ (record_of label
            <$> filter (λ pr, real_competition (competition pr)) rows).
Proof.
  intros Hrows. revert acc.
  induction Hrows as [|pr rows Hpr _ IH]; intros acc; simpl.
  - by rewrite app_nil_r.
  - rewrite skipped_stripped by done.
    destruct (real_competition (competition pr)) eqn:Hreal; simpl.
    + rewrite IH, filter_cons_True by (cbv beta; rewrite Hreal; exact I).
      by rewrite fmap_cons, <- app_assoc.
    + rewrite IH, filter_cons_False by (cbv beta; rewrite Hreal; intros []).
      done.
Qed.

(** C6: of the rows the extractor yields for a page, the aggregator appends
    exactly those whose competition is not empty, not blank and not made of
    digits only, in their order; each of the others is left out. *)
Theorem aggregator_filter (p : page) (rows : list row_data)
    (label : list N) (acc : list appearance) :
  page_rows p = Ok rows →
  append_rows label rows acc
  = acc ++ (record_of label
            <$> filter (λ pr, real_competition (competition pr)) rows)
  ∧ ∀ pr, pr ∈ rows →
      append_rows label [pr] acc
      = if real_competition (competition pr)
        then acc ++ [record_of label pr] else acc.
Proof.
  intros Hrows%page_rows_stripped. split; [by apply append_rows_filter|].
  intros pr Hpr. rewrite Forall_forall in Hrows.
  simpl. rewrite skipped_stripped by by apply Hrows.
  by destruct (real_competition (competition pr)).
Qed.

End Aggregator.

(** A page whose season table has a real division, a blank row, a row with
    a year for competition and the TOTALT row. *)
Lemma aggregator_filter_witness :
  let t := {| Extractor.thead :=
                Some [lit "T" ++ [196%N] ++ lit "VLING"; lit "Lag"; lit "MA"];
              Extractor.tbody :=
                [ [lit " Div1 "; lit "X"; lit "3"];
                  [lit "  "; lit "Y"; lit "1"];
                  [lit "2024"; lit "Z"; lit "2"];
                  [lit "TOTALT"; []; lit "3"] ] |} in
  let p := {| Extractor.headings := [(lit "S" ++ lit "2025/26", Extractor.TableSibling t)];
              Extractor.tables := [t] |} in
  let row c t m :=
    {| Extractor.competition := c; Extractor.team := t;
       Extractor.matches := m; Extractor.goals := [];
       Extractor.assists := []; Extractor.points := [];
       Extractor.penalty := [] |} in
  let rows := [ row (lit "Div1") (lit "X") (lit "3");
                row [] (lit "Y") (lit "1");
                row (lit "2024") (lit "Z") (lit "2");
                row (lit "TOTALT") [] (lit "3") ] in
  Extractor.page_rows p = Ok rows
  ∧ Frame.ap_division <$> Pipeline.append_rows (lit "F-Anna") rows []
    = [lit "Div1"; lit "TOTALT"]
  ∧ Pipeline.append_rows (lit "F-Anna") rows []
    = Pipeline.record_of (lit "F-Anna")
      <$> filter (λ pr, Spec.real_competition (Extractor.competition pr))
            rows.
Proof.
  intros t p row rows.
  split; [vm_compute; reflexivity|].
  split; [vm_compute; reflexivity|].
  refine (proj1 (aggregator_filter p rows (lit "F-Anna") [] _)).
  vm_compute; reflexivity.
Defined.

(** ** Pivot tables *)

Section PivotFacts.
Import Frame.

Lemma str_leb_total a b : str_leb a b = true ∨ str_leb b a = true.
Proof.
  revert b. induction a as [|x a IH]; intros [|y b]; simpl; auto.
  destruct (N.ltb_spec x y) as [Hxy|Hxy]; [by left|].
  destruct (N.ltb_spec y x) as [Hyx|Hyx]; [by right|].
  assert (x = y) as -> by lia. rewrite N.eqb_refl. simpl. apply IH.
Qed.

Lemma str_le_total : Total str_le.
Proof.
  intros a b. unfold str_le.
  destruct (str_leb_total a b) as [-> | ->]; [by left | by right].
Qed.

Lemma elem_of_sorted_keys ks x : x ∈ sorted_keys ks ↔ x ∈ ks.
Proof.
  unfold sorted_keys. by rewrite merge_sort_Permutation, elem_of_remove_dups.
Qed.

Lemma NoDup_sorted_keys ks : NoDup (sorted_keys ks).
Proof.
  unfold sorted_keys. rewrite merge_sort_Permutation. apply NoDup_remove_dups.
Qed.

Lemma Sorted_sorted_keys ks : Sorted str_le (sorted_keys ks).
Proof. apply Sorted_merge_sort, str_le_total. Qed.

Section Table.
Variables krow kcol : app_rec → option (list N).
Variable value : app_rec → Z.
Variable aggfunc : list Z → Z.
Variable fill_value : Z.
Variable df : list app_rec.

Local Abbreviation pv := (pivot_table krow kcol value aggfunc fill_value df).

Lemma elem_of_pivot_index i :
  i ∈ p_index pv ↔ ∃ r, r ∈ df ∧ krow r = Some i ∧ is_Some (kcol r).
Proof.
  unfold pv, pivot_table. simpl.
  rewrite elem_of_sorted_keys, list_elem_of_omap. split.
  - intros (r & [[_ Hc] Hr]%list_elem_of_filter & Hi). by exists r.
  - intros (r & Hr & Hi & Hc). exists r. split; [|done].
    apply list_elem_of_filter. split; [|done]. split; [by rewrite Hi | done].
Qed.

Lemma elem_of_pivot_columns c :
  c ∈ p_columns pv ↔ ∃ r, r ∈ df ∧ kcol r = Some c ∧ is_Some (krow r).
Proof.
  unfold pv, pivot_table. simpl.
  rewrite elem_of_sorted_keys, list_elem_of_omap. split.
  - intros (r & [[Hi _] Hr]%list_elem_of_filter & Hc). by exists r.
  - intros (r & Hr & Hc & Hi). exists r. split; [|done].
    apply list_elem_of_filter. split; [|done]. split; [done | by rewrite Hc].
Qed.

Lemma list_find_eq (l : list (list N)) x :
  x ∈ l → ∃ j, list_find (λ y, y = x) l = Some (j, x) ∧ l !! j = Some x.
Proof.
  intros Hx.
  destruct (list_find_elem_of (λ y, y = x) l x Hx eq_refl) as [[j y] Hj].
  pose proof Hj as (Hl & -> & _)%list_find_Some. by exists j.
Qed.

Lemma loc_index i :
  i ∈ p_index pv →
  loc pv i
  = Ok (cell_value krow kcol value aggfunc fill_value df i <$> p_columns pv).
Proof.
  intros Hi. destruct (list_find_eq _ _ Hi) as (j & Hfind & Hj).
  unfold loc. rewrite Hfind.
  unfold pv, pivot_table in *. simpl in *.
  by rewrite list_lookup_fmap, Hj.
Qed.

Lemma cell_index i c :
  i ∈ p_index pv → c ∈ p_columns pv →
  cell pv i c = Ok (cell_value krow kcol value aggfunc fill_value df i c).
Proof.
  intros Hi Hc. unfold cell. rewrite loc_index by done.
  destruct (list_find_eq _ _ Hc) as (j & Hfind & Hj).
  unfold mbind, result_bind. by rewrite Hfind, list_lookup_fmap, Hj.
Qed.

Lemma pivot_values_cells row :
  row ∈ p_values pv →
  ∃ i, i ∈ p_index pv
       ∧ row = cell_value krow kcol value aggfunc fill_value df i
               <$> p_columns pv.
Proof.
  unfold pv, pivot_table. simpl.
  intros (i & -> & Hi)%list_elem_of_fmap. by exists i.
Qed.

Lemma pivot_empty_iff :
  pivot_empty pv = true
  ↔ ∀ r, r ∈ df → ¬ (is_Some (krow r) ∧ is_Some (kcol r)).
Proof.
  unfold pivot_empty. rewrite orb_true_iff, !bool_decide_eq_true. split.
  - intros Hempty r Hr [[i Hi] [c Hc]].
    assert (i ∈ p_index pv) as Hin
      by (apply elem_of_pivot_index; exists r; by rewrite Hi, Hc).
    assert (c ∈ p_columns pv) as Hcn
      by (apply elem_of_pivot_columns; exists r; by rewrite Hi, Hc).
    destruct Hempty as [He | He]; rewrite He in *;
      by eapply not_elem_of_nil.
  - intros Hnone. left.
    destruct (p_index pv) as [|i idx] eqn:Hidx; [done|].
    assert (i ∈ p_index pv) as Hin by (rewrite Hidx; by left).
    apply elem_of_pivot_index in Hin as (r & Hr & Hi & Hc).
    destruct (Hnone r Hr). by rewrite Hi.
Qed.

End Table.
End PivotFacts.

(** ** The two matrices *)

Section Sums.
Import Frame Spec.





Lemma exact_sum_nonneg l : Forall (λ v, 0 ≤ v)%Z l → (0 ≤ exact_sum l)%Z.
Proof. induction 1; simpl; lia. Qed.

Lemma exact_sum_filter_cons (P : app_rec → Prop) `{∀ r, Decision (P r)} r df :
  exact_sum (a_matches <$> filter P (r :: df))
  = ((if decide (P r) then a_matches r else 0)
     + exact_sum (a_matches <$> filter P df))%Z.
Proof. rewrite filter_cons. by case_decide. Qed.


(** *** Sums of 64-bit integers *)

Lemma wrap64_fits z : fits_int64 z = true → wrap64 z = z.
Proof.
  unfold fits_int64, wrap64. intros [Hlo Hhi]%andb_true_iff.
  apply Z.leb_le in Hlo. apply Z.ltb_lt in Hhi.
  rewrite Z.mod_small; lia.
Qed.

Lemma wrap64_range z : fits_int64 (wrap64 z) = true.
Proof.
  unfold fits_int64, wrap64.
  pose proof (Z.mod_pos_bound (z + 2 ^ 63) (2 ^ 64) ltac:(lia)).
  apply andb_true_iff. split; [apply Z.leb_le | apply Z.ltb_lt]; lia.
Qed.

Lemma wrap64_add_r x y : wrap64 (x + wrap64 y) = wrap64 (x + y).
Proof.
  unfold wrap64. f_equal.
  replace (x + ((y + 2 ^ 63) mod 2 ^ 64 - 2 ^ 63) + 2 ^ 63)%Z
    with (x + (y + 2 ^ 63) mod 2 ^ 64)%Z by lia.
  rewrite Zplus_mod_idemp_r. f_equal. lia.
Qed.


(** Wrapping at every addition is wrapping the sum once. *)
Lemma int64_sum_wrap l : int64_sum l = wrap64 (exact_sum l).
Proof.
  induction l as [|x l IH]; [done|]. simpl. by rewrite IH, wrap64_add_r.
Qed.


Lemma exact_sum_filter_le (P : app_rec → Prop) `{∀ r, Decision (P r)} df :
  Forall (λ r, 0 ≤ a_matches r)%Z df →
  (0 ≤ exact_sum (a_matches <$> filter P df)
   ≤ exact_sum (a_matches <$> df))%Z.
Proof.
  induction 1 as [|r df Hr _ IH]; [done|].
  rewrite exact_sum_filter_cons, fmap_cons. simpl. case_decide; lia.
Qed.

(** Below 2^63 no sum of counts that are not negative wraps. *)
Lemma int64_sum_exact l :
  Forall (λ v, 0 ≤ v)%Z l → (exact_sum l < 2 ^ 63)%Z →
  int64_sum l = exact_sum l.
Proof.
  intros Hpos%exact_sum_nonneg Hlt. rewrite int64_sum_wrap.
  apply wrap64_fits. unfold fits_int64.
  apply andb_true_iff. split; [apply Z.leb_le | apply Z.ltb_lt]; lia.
Qed.

End Sums.

Section Matrices.
Import Frame Pipeline Spec.
Context `{Runtime}.

(** What the three filters leave in the working frame. *)
Lemma df_app_kept (df : list raw_row) r :
  r ∈ (split_frames df).2 →
  ∃ d, a_division r = Some d ∧ d ≠ [] ∧ (0 < a_matches r)%Z
       ∧ is_total r = false.
Proof.
  unfold split_frames. simpl.
  intros [Hkept [Hnt _]%list_elem_of_filter]%list_elem_of_filter.
  apply negb_True, Is_true_false in Hnt.
  unfold kept in Hkept. destruct (a_division r) as [d|] eqn:Hd; [|done].
  apply andb_True in Hkept as [Hne Hpos]. exists d.
  split; [done|]. split; [by destruct d|]. split; [|done].
  by apply Z.ltb_lt, Is_true_true.
Qed.

Lemma df_app_positive (df : list raw_row) :
  Forall (λ r, 0 ≤ a_matches r)%Z (split_frames df).2.
Proof.
  apply Forall_forall. intros r Hr.
  destruct (df_app_kept df r Hr) as (_ & _ & _ & Hpos & _). lia.
Qed.


Lemma division_pivot_columns (df_app : list app_rec) d :
  d ∈ p_columns (division_pivot df_app)
  ↔ ∃ r, r ∈ df_app ∧ a_division r = Some d.
Proof.
  unfold division_pivot. rewrite elem_of_pivot_columns. split.
  - intros (r & Hr & Hd & _). by exists r.
  - intros (r & Hr & Hd). exists r. by repeat split.
Qed.

Lemma league_pivot_index (df_app : list app_rec) d :
  d ∈ p_index (league_pivot df_app)
  ↔ ∃ r, r ∈ df_app ∧ a_division r = Some d.
Proof.
  unfold league_pivot. rewrite elem_of_pivot_index. split.
  - intros (r & Hr & Hd & _). by exists r.
  - intros (r & Hr & Hd). exists r. by repeat split.
Qed.

Lemma league_pivot_columns (df_app : list app_rec) player :
  player ∈ p_columns (league_pivot df_app)
  ↔ ∃ r, r ∈ df_app ∧ a_player r = player ∧ is_Some (a_division r).
Proof.
  unfold league_pivot. rewrite elem_of_pivot_columns. split.
  - intros (r & Hr & [= Hp] & Hd). by exists r.
  - intros (r & Hr & Hp & Hd). exists r. by rewrite Hp.
Qed.

Lemma division_cell_value (df : list app_rec) player division :
  cell_value (λ r, Some (a_player r)) a_division a_matches int64_sum 0 df
    player division
  = int64_sum (a_matches <$>
      filter (λ r, a_player r = player ∧ a_division r = Some division) df).
Proof.
  unfold cell_value, group.
  rewrite (list_filter_iff _
    (λ r, a_player r = player ∧ a_division r = Some division))
    by (intros r; split; intros [Hp Hd]; split; congruence).
  by destruct (filter _ df).
Qed.


(** Without overflow the cells and the row sums are the sums in the
    integers. *)
Lemma division_cell_exact (df : list raw_row) player division :
  let df_app := (split_frames df).2 in
  no_overflow df_app →
  cell_value (λ r, Some (a_player r)) a_division a_matches int64_sum 0
    df_app player division
  = exact_sum (a_matches <$>
      filter (λ r, a_player r = player ∧ a_division r = Some division)
        df_app)
  ∧ (0 ≤ exact_sum (a_matches <$>
           filter (λ r, a_player r = player ∧ a_division r = Some division)
             df_app))%Z.
Proof.
  intros df_app Hsmall. subst df_app. rewrite division_cell_value.
  pose proof (exact_sum_filter_le
    (λ r, a_player r = player ∧ a_division r = Some division)
    (split_frames df).2 (df_app_positive df)) as Hle.
  split; [|lia]. apply int64_sum_exact; [|unfold no_overflow in Hsmall; lia].
  apply Forall_fmap, Forall_forall. intros r [_ Hr]%list_elem_of_filter.
  pose proof (df_app_positive df) as Hpos. rewrite Forall_forall in Hpos.
  by apply Hpos.
Qed.



Lemma played_flag_spec r :
  (played_flag r = 0 ∨ played_flag r = 1)%Z
  ∧ (played_flag r = 1%Z ↔ (0 < a_matches r)%Z).
Proof.
  unfold played_flag. destruct (Z.ltb_spec 0 (a_matches r)); split; lia.
Qed.

Lemma foldr_max_flags x l :
  (x = 0 ∨ x = 1)%Z → Forall (λ v, v = 0 ∨ v = 1)%Z l →
  (foldr Z.max x l = 0 ∨ foldr Z.max x l = 1)%Z
  ∧ (foldr Z.max x l = 1%Z ↔ x = 1%Z ∨ 1%Z ∈ l).
Proof.
  intros Hx. induction 1 as [|y l Hy _ [IH1 IH2]]; simpl.
  - split; [done|]. split; [by left|]. intros [?|?%elem_of_nil]; done.
  - split; [lia|]. rewrite elem_of_cons. split.
    + intros Hmax. destruct (decide (y = 1%Z)) as [->|Hne]; [by right; left|].
      assert (foldr Z.max x l = 1%Z) as [?|?]%IH2 by lia; auto.
    + intros [Hx1 | [<- | Hl]].
      * assert (foldr Z.max x l = 1%Z) by (apply IH2; by left). lia.
      * lia.
      * assert (foldr Z.max x l = 1%Z) by (apply IH2; by right). lia.
Qed.

Lemma maxZ_flags l :
  Forall (λ v, v = 0 ∨ v = 1)%Z l →
  (maxZ l = 0 ∨ maxZ l = 1)%Z ∧ (maxZ l = 1%Z ↔ 1%Z ∈ l).
Proof.
  destruct 1 as [|x l Hx Hl]; simpl.
  - split; [by left|]. split; [done | by intros ?%elem_of_nil].
  - destruct (foldr_max_flags x l Hx Hl) as [H1 H2]. split; [done|].
    rewrite H2, elem_of_cons. split; intros [?|?]; auto.
Qed.

Lemma league_cell_value (df : list app_rec) division player :
  let v := cell_value a_division (λ r, Some (a_player r)) played_flag maxZ 0
             df division player in
  (v = 0 ∨ v = 1)%Z
  ∧ (v = 1%Z ↔ ∃ r, r ∈ df ∧ a_division r = Some division
                    ∧ a_player r = player ∧ (0 < a_matches r)%Z).
Proof.
  intros v.
  assert (v = maxZ (played_flag <$> group a_division (λ r, Some (a_player r))
                      df division player)) as ->.
  { unfold v, cell_value.
    by destruct (group a_division (λ r, Some (a_player r)) df division
                   player). }
  destruct (maxZ_flags (played_flag <$> group a_division
              (λ r, Some (a_player r)) df division player)) as [H1 H2].
  { apply Forall_fmap, Forall_true. intros r. apply played_flag_spec. }
  split; [done|]. rewrite H2, list_elem_of_fmap. unfold group. split.
  - intros (r & Hflag & [[Hd [= Hp]] Hr]%list_elem_of_filter).
    exists r. repeat split; try done. by apply played_flag_spec.
  - intros (r & Hr & Hd & Hp & Hpos). exists r. split.
    + symmetry. by apply played_flag_spec.
    + apply list_elem_of_filter. split; [|done]. by rewrite Hd, Hp.
Qed.

(** C7: the division-by-player matrix of a frame has a row for each
    division and a column for each player of the rows with a division,
    and no other; every cell is 0 or 1; a cell is 1 exactly when a row of
    the frame has that division and player with a positive match count;
    and every row with a division and a positive match count has its
    cell, which is 1. In the working frame, which the run builds the
    matrix of, every row has a division and a positive match count. *)
Theorem league_pivot_flags (df : list raw_row) (frame : list app_rec) :
  let pv := league_pivot frame in
  (∀ division,
     division ∈ p_index pv ↔ ∃ r, r ∈ frame ∧ a_division r = Some division)
  ∧ (∀ player,
       player ∈ p_columns pv
       ↔ ∃ r, r ∈ frame ∧ a_player r = player ∧ is_Some (a_division r))
  ∧ Forall (Forall (λ v, v = 0 ∨ v = 1)%Z) (p_values pv)
  ∧ (∀ division player,
       division ∈ p_index pv → player ∈ p_columns pv →
       ∃ v, cell pv division player = Ok v
            ∧ (v = 0 ∨ v = 1)%Z
            ∧ (v = 1%Z ↔ ∃ r, r ∈ frame ∧ a_division r = Some division
                              ∧ a_player r = player
                              ∧ (0 < a_matches r)%Z))
  ∧ (∀ r division,
       r ∈ frame → a_division r = Some division → (0 < a_matches r)%Z →
       cell pv division (a_player r) = Ok 1%Z)
  ∧ (∀ r, r ∈ (split_frames df).2 →
       ∃ division, a_division r = Some division ∧ (0 < a_matches r)%Z).
Proof.
  intros pv.
  split; [apply league_pivot_index|].
  split; [apply league_pivot_columns|]. split; [|split; [|split]].
  - apply Forall_forall. intros row Hrow.
    apply pivot_values_cells in Hrow as (i & _ & ->).
    apply Forall_fmap, Forall_true. intros c. apply league_cell_value.
  - intros division player Hd Hp. eexists. split.
    + unfold pv, league_pivot. by apply cell_index.
    + apply league_cell_value.
  - intros r d Hr Hd Hpos. unfold pv, league_pivot.
    rewrite cell_index.
    + f_equal. apply league_cell_value. by exists r.
    + apply league_pivot_index. by exists r.
    + apply league_pivot_columns. exists r. by rewrite Hd.
  - intros r Hr.
    destruct (df_app_kept df r Hr) as (d & Hd & _ & Hpos & _). eauto.
Qed.

End Matrices.

(** ** Runs *)

Section Runs.
Import Frame.

Lemma bind_ok {A B} (m : run A) (f : A → run B) a :
  outcome m = Ok a →
  m ≫= f = Run (log m ++ log (f a)) (outcome (f a)).
Proof. unfold mbind, run_bind. by intros ->. Qed.

Lemma bind_raise {A B} (m : run A) (f : A → run B) e :
  outcome m = Raise e → m ≫= f = Run (log m) (Raise e).
Proof. unfold mbind, run_bind. by intros ->. Qed.

Lemma bind_emit {B} e (k : unit → run B) :
  emit e ≫= k = Run (e :: log (k tt)) (outcome (k tt)).
Proof. done. Qed.

Lemma bind_say {B} m (k : unit → run B) :
  say m ≫= k = Run (Stdout m :: log (k tt)) (outcome (k tt)).
Proof. done. Qed.

Lemma bind_lift_ok {A B} (a : A) (f : A → run B) : lift (Ok a) ≫= f = f a.
Proof. unfold mbind, run_bind, lift. simpl. by destruct (f a). Qed.

End Runs.

(** ** Validation against the TOTALT rows *)

Section Validation.
Import Frame Pipeline Spec.
Context `{Runtime}.

Lemma validate_cons pv df_total player rest :
  validate pv df_total (player :: rest)
  = match filter (λ r, a_player r = player) df_total with
    | [] => validate pv df_total rest
    | total_row :: _ =>
        cells ← lift (loc pv player);
        (if bool_decide (a_matches total_row ≠ int64_sum cells)
         then say (MsgMismatch player (int64_sum cells) (a_matches total_row))
         else mret tt);;
        validate pv df_total rest
    end.
Proof. done. Qed.

Lemma validate_run pv df_total players :
  (∀ p, p ∈ players → ∃ cells, loc pv p = Ok cells) →
  validate pv df_total players
  = Run (players ≫= warning_of pv df_total) (Ok tt).
Proof.
  induction players as [|p players IH]; intros Hloc; [done|].
  rewrite bind_cons, validate_cons. unfold warning_of at 1.
  rewrite IH by (intros q Hq; apply Hloc; by right).
  destruct (filter _ df_total) as [|total_row rest]; [done|].
  destruct (Hloc p) as [cells ->]; [by left|].
  rewrite bind_lift_ok. by case_bool_decide.
Qed.

End Validation.

(** ** The stage from the re-read frame on *)

Section PivotStage.
Import Frame Pipeline Spec.
Context `{Runtime}.

(** The two pivots are over the same keyed rows, so one is empty when the
    other is. *)
Lemma league_pivot_empty (df_app : list app_rec) :
  pivot_empty (league_pivot df_app) = pivot_empty (division_pivot df_app).
Proof.
  apply eq_true_iff_eq. unfold league_pivot, division_pivot.
  rewrite !pivot_empty_iff. split; intros Hnone r Hr [? ?];
    by apply (Hnone r Hr).
Qed.

(** The run of the stage on 64-bit counts, event by event. *)
Lemma int64_stage_run (out_prefix : list N) (df_total df_app : list app_rec) :
  let pv := division_pivot df_app in
  let out := out_path out_prefix (lit "players_division_stack.png") in
  let out2 := out_path out_prefix (lit "players_per_league_stack.png") in
  int64_stage out_prefix df_total df_app
  = if pivot_empty pv then Run [Stdout MsgNoDivisionData] (Ok df_app)
    else Run ([StackedChart out pv; Stdout (MsgSavedChart out)]
              ++ (p_index pv ≫= warning_of pv df_total)
              ++ [LeagueChart out2 (league_pivot df_app);
                  Stdout (MsgSavedLeagueChart out2)])
             (Ok df_app).
Proof.
  cbv zeta. unfold int64_stage.
  set (pv := division_pivot df_app).
  destruct (pivot_empty pv) eqn:Hempty; [done|].
  rewrite league_pivot_empty. fold pv. rewrite Hempty.
  rewrite bind_emit, bind_say. cbn [log outcome].
  rewrite validate_run.
  2:{ intros p Hp. eexists. by apply loc_index. }
  rewrite (bind_ok _ _ tt) by done. cbn [log outcome].
  rewrite bind_emit, bind_say. cbn [log outcome]. done.
Qed.

Lemma counts_fit_forallb (df : list raw_row) :
  forallb (λ r, fits_int64 (a_matches (coerce r))) df = true ↔ counts_fit df.
Proof.
  unfold counts_fit. rewrite forallb_forall, Forall_forall.
  by setoid_rewrite list_elem_of_In.
Qed.

Variable wide_stage : list N → list raw_row → run (list app_rec).

(** The three ways the stage goes: a division column that is not text
    ends it at once; counts beyond 64 bits leave the rest to the
    libraries. *)
Lemma pivot_stage_cases (out_prefix : list N) (max_divisions max_leagues : Z)
    (f : csv_frame) :
  pivot_stage wide_stage out_prefix max_divisions max_leagues f
  = if division_text f
    then if forallb (λ r, fits_int64 (a_matches (coerce r))) (rows f)
         then int64_stage out_prefix (split_frames (rows f)).1
                (split_frames (rows f)).2
         else wide_stage out_prefix (rows f)
    else Run [] (Raise AttributeError).
Proof.
  unfold pivot_stage, division_str.
  destruct (division_text f); [|done].
  rewrite bind_lift_ok. by destruct (split_frames (rows f)).
Qed.

Lemma pivot_stage_not_text (out_prefix : list N)
    (max_divisions max_leagues : Z) (f : csv_frame) :
  division_text f = false →
  pivot_stage wide_stage out_prefix max_divisions max_leagues f
  = Run [] (Raise AttributeError).
Proof. intros Hf. by rewrite pivot_stage_cases, Hf. Qed.

(** The whole run of the stage on a text division column and 64-bit
    counts, event by event. *)
Lemma pivot_stage_run (out_prefix : list N) (max_divisions max_leagues : Z)
    (f : csv_frame) :
  let df_total := (split_frames (rows f)).1 in
  let df_app := (split_frames (rows f)).2 in
  let pv := division_pivot df_app in
  let out := out_path out_prefix (lit "players_division_stack.png") in
  let out2 := out_path out_prefix (lit "players_per_league_stack.png") in
  division_text f = true → counts_fit (rows f) →
  pivot_stage wide_stage out_prefix max_divisions max_leagues f
  = if pivot_empty pv then Run [Stdout MsgNoDivisionData] (Ok df_app)
    else Run ([StackedChart out pv; Stdout (MsgSavedChart out)]
              ++ (p_index pv ≫= warning_of pv df_total)
              ++ [LeagueChart out2 (league_pivot df_app);
                  Stdout (MsgSavedLeagueChart out2)])
             (Ok df_app).
Proof.
  cbv zeta. intros Htext Hfit%counts_fit_forallb.
  rewrite pivot_stage_cases, Htext, Hfit. apply int64_stage_run.
Qed.

Lemma elem_of_warnings pv df_total players e :
  e ∈ players ≫= warning_of pv df_total ↔
  ∃ player total_row rest cells,
    player ∈ players
    ∧ filter (λ r, a_player r = player) df_total = total_row :: rest
    ∧ loc pv player = Ok cells
    ∧ a_matches total_row ≠ int64_sum cells
    ∧ e = Stdout (MsgMismatch player (int64_sum cells) (a_matches total_row)).
Proof.
  rewrite list_elem_of_bind. unfold warning_of. split.
  - intros (player & He & Hp).
    destruct (filter _ df_total) as [|total_row rest] eqn:Hf;
      [by apply elem_of_nil in He|].
    destruct (loc pv player) as [cells|] eqn:Hloc;
      [|by apply elem_of_nil in He].
    case_bool_decide; [|by apply elem_of_nil in He].
    apply list_elem_of_singleton in He.
    by exists player, total_row, rest, cells.
  - intros (player & total_row & rest & cells & Hp & Hf & Hloc & Hne & ->).
    exists player. split; [|done]. rewrite Hf, Hloc.
    rewrite bool_decide_eq_true_2 by done. by left.
Qed.


End PivotStage.

Section Charts.
Import Frame Pipeline Spec.
Context `{Runtime}.
Variable wide_stage : list N → list raw_row → run (list app_rec).

Lemma warnings_stdout pv df_total players :
  Forall (λ e, ∃ m, e = Stdout m) (players ≫= warning_of pv df_total).
Proof.
  apply Forall_forall. intros e He.
  apply elem_of_warnings in He as (p & t & rs & cs & _ & _ & _ & _ & ->).
  by eexists.
Qed.

Lemma charted_leagues_stdout l l' :
  Forall (λ e, ∃ m, e = Stdout m) l →
  charted_leagues (l ++ l') = charted_leagues l'.
Proof. induction 1 as [|e l [m ->] _ IH]; [done | apply IH]. Qed.

(** C1, as the code does it: the run does not depend on [max_divisions];
    on a text division column and 64-bit counts, the matrix handed to the
    first chart is the whole player-by-division pivot, and its columns are
    all the divisions of the working frame, each once, in ascending
    order. *)
Theorem stacked_chart_all_divisions (out_prefix : list N)
    (max_divisions max_leagues : Z) (f : csv_frame) :
  let df_app := (split_frames (rows f)).2 in
  let pv := division_pivot df_app in
  let run := pivot_stage wide_stage out_prefix max_divisions max_leagues f in
  division_text f = true →
  counts_fit (rows f) →
  run = pivot_stage wide_stage out_prefix 0 0 f
  ∧ (∀ path m, StackedChart path m ∈ log run → m = pv)
  ∧ (pivot_empty pv = false →
     charted_divisions (log run) = Some (p_columns pv))
  ∧ (∀ d, d ∈ p_columns pv ↔ ∃ r, r ∈ df_app ∧ a_division r = Some d)
  ∧ NoDup (p_columns pv)
  ∧ Sorted str_le (p_columns pv).
Proof.
  cbv zeta. intros Htext Hfit. split; [done|].
  rewrite pivot_stage_run by done.
  split; [|split; [|split; [|split]]].
  - intros path m.
    destruct (pivot_empty _).
    + cbn [log]. by intros ?%list_elem_of_singleton.
    + cbn [log]. rewrite !elem_of_app, elem_of_warnings.
      intros [Hin | [Hin | Hin]].
      * apply elem_of_cons in Hin as [[= _ ->] | Hin]; [done|].
        by apply list_elem_of_singleton in Hin.
      * by destruct Hin as (? & ? & ? & ? & _ & _ & _ & _ & ?).
      * apply elem_of_cons in Hin as [? | Hin]; [done|].
        by apply list_elem_of_singleton in Hin.
  - by intros ->.
  - apply division_pivot_columns.
  - apply NoDup_sorted_keys.
  - apply Sorted_sorted_keys.
Qed.

(** C3, as the code does it: the run does not depend on [max_leagues]; on
    a text division column and 64-bit counts, the matrix handed to the
    second chart is the whole division-by-player pivot, and its rows are
    all the divisions of the working frame, each once, in ascending
    order. *)
Theorem league_chart_all_divisions (out_prefix : list N)
    (max_divisions max_leagues : Z) (f : csv_frame) :
  let df_app := (split_frames (rows f)).2 in
  let pv := league_pivot df_app in
  let run := pivot_stage wide_stage out_prefix max_divisions max_leagues f in
  division_text f = true →
  counts_fit (rows f) →
  run = pivot_stage wide_stage out_prefix 0 0 f
  ∧ (∀ path m, LeagueChart path m ∈ log run → m = pv)
  ∧ (pivot_empty pv = false → charted_leagues (log run) = Some (p_index pv))
  ∧ (∀ d, d ∈ p_index pv ↔ ∃ r, r ∈ df_app ∧ a_division r = Some d)
  ∧ NoDup (p_index pv)
  ∧ Sorted str_le (p_index pv).
Proof.
  cbv zeta. intros Htext Hfit. split; [done|].
  rewrite pivot_stage_run by done.
  rewrite league_pivot_empty.
  split; [|split; [|split; [|split]]].
  - intros path m.
    destruct (pivot_empty _).
    + cbn [log]. by intros ?%list_elem_of_singleton.
    + cbn [log]. rewrite !elem_of_app, elem_of_warnings.
      intros [Hin | [Hin | Hin]].
      * apply elem_of_cons in Hin as [? | Hin]; [done|].
        by apply list_elem_of_singleton in Hin.
      * by destruct Hin as (? & ? & ? & ? & _ & _ & _ & _ & ?).
      * apply elem_of_cons in Hin as [[= _ ->] | Hin]; [done|].
        by apply list_elem_of_singleton in Hin.
  - intros ->. cbn [log app charted_leagues].
    by rewrite charted_leagues_stdout by apply warnings_stdout.
  - apply league_pivot_index.
  - apply NoDup_sorted_keys.
  - apply Sorted_sorted_keys.
Qed.

End Charts.
(** ** The stage on concrete frames *)

Section StageExamples.
Import Frame Pipeline Spec.

Local Ltac fits := unfold counts_fit; repeat constructor.

(** Four divisions with totals 10, 5, 50 and 1 and a cap of 2: the chart
    gets all four, where the cap of the specification keeps the two with
    totals 50 and 10. *)
Lemma column_cap_counterexample :
  let df := [ raw (lit "F-P") (lit "A") 10; raw (lit "F-P") (lit "B") 5;
              raw (lit "F-P") (lit "C") 50; raw (lit "F-P") (lit "D") 1 ] in
  let pv := division_pivot (split_frames df).2 in
  let run := pivot_stage no_wide_stage [] 2 12 (text_frame df) in
  p_values pv = [[10; 5; 50; 1]%Z]
  ∧ capped_divisions 2 pv = [lit "C"; lit "A"]
  ∧ charted_divisions (log run) = Some [lit "A"; lit "B"; lit "C"; lit "D"]
  ∧ charted_divisions (log run) ≠ Some (capped_divisions 2 pv).
Proof. vm_compute. repeat split; congruence. Qed.

(** The same frame under the theorem: the chart gets the whole matrix. *)
Lemma stacked_chart_all_divisions_witness :
  let df := [ raw (lit "F-P") (lit "A") 10; raw (lit "F-P") (lit "B") 5;
              raw (lit "F-P") (lit "C") 50; raw (lit "F-P") (lit "D") 1 ] in
  let df_app := (split_frames df).2 in
  let pv := division_pivot df_app in
  let run := pivot_stage no_wide_stage [] 2 12 (text_frame df) in
  run = pivot_stage no_wide_stage [] 0 0 (text_frame df)
  ∧ (∀ path m, StackedChart path m ∈ log run → m = pv)
  ∧ (pivot_empty pv = false →
     charted_divisions (log run) = Some (p_columns pv))
  ∧ (∀ d, d ∈ p_columns pv ↔ ∃ r, r ∈ df_app ∧ a_division r = Some d)
  ∧ NoDup (p_columns pv)
  ∧ Sorted str_le (p_columns pv).
Proof.
  intros df df_app pv run.
  refine (stacked_chart_all_divisions no_wide_stage [] 2 12 (text_frame df)
            _ _).
  - reflexivity.
  - fits.
Defined.

(** Two divisions, one with two players and one with one, and a cap of 1:
    the chart gets both. *)
Lemma league_cap_counterexample :
  let df := [ raw (lit "F-P") (lit "A") 3; raw (lit "B-Q") (lit "A") 2;
              raw (lit "F-P") (lit "B") 4 ] in
  let pv := league_pivot (split_frames df).2 in
  let run := pivot_stage no_wide_stage [] 8 1 (text_frame df) in
  p_values pv = [[1; 1]; [0; 1]]%Z
  ∧ capped_leagues 1 pv = [lit "A"]
  ∧ charted_leagues (log run) = Some [lit "A"; lit "B"]
  ∧ charted_leagues (log run) ≠ Some (capped_leagues 1 pv).
Proof. vm_compute. repeat split; congruence. Qed.

Lemma league_chart_all_divisions_witness :
  let df := [ raw (lit "F-P") (lit "A") 3; raw (lit "B-Q") (lit "A") 2;
              raw (lit "F-P") (lit "B") 4 ] in
  let df_app := (split_frames df).2 in
  let pv := league_pivot df_app in
  let run := pivot_stage no_wide_stage [] 8 1 (text_frame df) in
  run = pivot_stage no_wide_stage [] 0 0 (text_frame df)
  ∧ (∀ path m, LeagueChart path m ∈ log run → m = pv)
  ∧ (pivot_empty pv = false → charted_leagues (log run) = Some (p_index pv))
  ∧ (∀ d, d ∈ p_index pv ↔ ∃ r, r ∈ df_app ∧ a_division r = Some d)
  ∧ NoDup (p_index pv)
  ∧ Sorted str_le (p_index pv).
Proof.
  intros df df_app pv run.
  refine (league_chart_all_divisions no_wide_stage [] 8 1 (text_frame df)
            _ _).
  - reflexivity.
  - fits.
Defined.


(** Two team entries of 2^63 - 1 matches in one division: the cell wraps
    to -2, and a TOTALT row of -2 raises no warning. *)
Example division_pivot_wraps :
  let big := (2 ^ 63 - 1)%Z in
  let df := [ raw (lit "F-P") (lit "A") big; raw (lit "F-P") (lit "A") big;
              raw (lit "F-P") (lit "TOTALT") (-2) ] in
  let pv := division_pivot (split_frames df).2 in
  let run := pivot_stage no_wide_stage [] 8 12 (text_frame df) in
  p_values pv = [[-2]%Z]
  ∧ log run
    = [ StackedChart (lit "players_division_stack.png") pv;
        Stdout (MsgSavedChart (lit "players_division_stack.png"));
        LeagueChart (lit "players_per_league_stack.png")
          (league_pivot (split_frames df).2);
        Stdout (MsgSavedLeagueChart (lit "players_per_league_stack.png")) ].
Proof. vm_compute. split; reflexivity. Qed.

(** A division column that is not text ends the stage at once. *)
Example stage_without_text :
  let df := [ raw (lit "F-P") (lit "A") 3 ] in
  pivot_stage no_wide_stage [] 8 12 {| division_text := false; rows := df |}
  = Run [] (Raise AttributeError).
Proof. vm_compute. reflexivity. Qed.

(** TOTALT 20 against divisions of 10 and 10: no warning. *)
Example validation_agrees :
  let df := [ raw (lit "F-P") (lit "A") 10; raw (lit "F-P") (lit "B") 10;
              raw (lit "F-P") (lit "Totalt") 20 ] in
  log (pivot_stage no_wide_stage [] 8 12 (text_frame df))
  = [ StackedChart (lit "players_division_stack.png")
        (division_pivot (split_frames df).2);
      Stdout (MsgSavedChart (lit "players_division_stack.png"));
      LeagueChart (lit "players_per_league_stack.png")
        (league_pivot (split_frames df).2);
      Stdout (MsgSavedLeagueChart (lit "players_per_league_stack.png")) ].
Proof. vm_compute. reflexivity. Qed.


Example validation_disagrees :
  let df := [ raw (lit "F-P") (lit "A") 10; raw (lit "F-P") (lit "B") 5;
              raw (lit "F-P") (lit "TOTALT") 20 ] in
  log (pivot_stage no_wide_stage [] 8 12 (text_frame df))
  = [ StackedChart (lit "players_division_stack.png")
        (division_pivot (split_frames df).2);
      Stdout (MsgSavedChart (lit "players_division_stack.png"));
      Stdout (MsgMismatch (lit "F-P") 15 20);
      LeagueChart (lit "players_per_league_stack.png")
        (league_pivot (split_frames df).2);
      Stdout (MsgSavedLeagueChart (lit "players_per_league_stack.png")) ].
Proof. vm_compute. reflexivity. Qed.

End StageExamples.

(** ** The whole run *)

Section WholeRun.
Import Frame Pipeline Spec.
Context `{Runtime}.
Variable browse : list N → result Extractor.page.
Variable read_csv : list appearance → csv_frame.
Variable wide_stage : list N → list raw_row → run (list app_rec).


Lemma collect_cons row rest acc :
  collect browse (row :: rest) acc
  = match r_href row with
    | VStr href =>
        if is_empty (strip href) then collect browse rest acc
        else
          prefix ← lift (pos_prefix (default (VStr (lit "?")) (r_position row)));
          let player_label :=
            prefix ++ lit "-" ++ py_format (py_or (r_namn row) (r_name row)) in
          say (MsgFetching player_label);;
          appearances' ←
            try_except
              (player_rows ← lift (fetch_player_appearances browse
                                     (href_full href));
               emit Sleep;;
               mret (append_rows player_label player_rows acc))
              (λ e, say (MsgFetchFailed player_label e);; mret acc);
          collect browse rest appearances'
    | _ => collect browse rest acc
    end.
Proof. done. Qed.


(** The run of [analyze_trupp], from the run of the roster loop. *)
Lemma analyze_trupp_run trupp out_prefix max_divisions max_leagues :
  let head := [Stdout MsgColumns; Stdout MsgSampleTitle;
               Stdout MsgSampleRows] in
  let app_csv := out_path out_prefix (lit "appearances.csv") in
  analyze_trupp browse read_csv wide_stage trupp out_prefix max_divisions
    max_leagues
  = match outcome (collect browse trupp []) with
    | Raise e => Run (head ++ log (collect browse trupp [])) (Raise e)
    | Ok [] =>
        Run (head ++ log (collect browse trupp [])
             ++ [Stdout MsgNoAppearances]) (Ok [])
    | Ok appearances =>
        let stage := pivot_stage wide_stage out_prefix max_divisions
                       max_leagues (read_csv appearances) in
        Run (head ++ log (collect browse trupp [])
             ++ [WriteCsv app_csv appearances; Stdout (MsgSavedCsv app_csv)]
             ++ log stage)
            (outcome stage)
    end.
Proof.
  cbv zeta. unfold analyze_trupp. rewrite !bind_say. cbn [log outcome].
  destruct (outcome (collect browse trupp [])) as [appearances|e] eqn:Hc.
  - rewrite (bind_ok _ _ appearances) by done.
    destruct appearances as [|a appearances]; [done|].
    by rewrite bind_emit, bind_say.
  - by rewrite (bind_raise _ _ e).
Qed.


End WholeRun.

(** ** Whole runs on a concrete site *)

Section RunExamples.
Import Frame Pipeline Spec.


(** The same player with three matches in Div1 and a TOTALT row of three:
    both records go to the appearance file, the matrix has the one cell 3,
    and no warning is printed. *)
Example run_of_one_player :
  let body := [[lit "Div1"; lit "X"; lit "3"]; [lit "TOTALT"; []; lit "3"]] in
  let label := lit "F-Anna Svensson" in
  let record division team matches :=
    {| ap_player := label; ap_division := division; ap_team := team;
       ap_matches := matches; ap_goals := []; ap_assists := [];
       ap_points := []; ap_penalty := [] |} in
  let pv := {| p_index := [label]; p_columns := [lit "Div1"];
               p_values := [[3%Z]] |} in
  let ppl := {| p_index := [lit "Div1"]; p_columns := [label];
                p_values := [[1%Z]] |} in
  log (analyze_trupp (site body) read_text no_wide_stage [anna] [] 8 12)
  = [ Stdout MsgColumns; Stdout MsgSampleTitle; Stdout MsgSampleRows;
      Stdout (MsgFetching label); Sleep;
      WriteCsv (lit "appearances.csv")
        [record (lit "Div1") (lit "X") (lit "3");
         record (lit "TOTALT") [] (lit "3")];
      Stdout (MsgSavedCsv (lit "appearances.csv"));
      StackedChart (lit "players_division_stack.png") pv;
      Stdout (MsgSavedChart (lit "players_division_stack.png"));
      LeagueChart (lit "players_per_league_stack.png") ppl;
      Stdout (MsgSavedLeagueChart (lit "players_per_league_stack.png")) ].
Proof. vm_compute. reflexivity. Qed.

(** A roster row without a position text: the loop raises before it
    fetches anything. *)
Example run_without_position :
  let row := {| r_namn := VNone; r_name := VStr (lit "Anna Svensson");
                r_position := Some VNone;
                r_href := VStr (lit "/spelare/5") |} in
  analyze_trupp (site []) read_text no_wide_stage [row] [] 8 12
  = Run [Stdout MsgColumns; Stdout MsgSampleTitle; Stdout MsgSampleRows]
        (Raise AttributeError).
Proof. vm_compute. reflexivity. Qed.

(** A player whose only competition is named 1.5: the record goes to the
    appearance file, the division column is read back as numbers, and the
    run raises after the file is written. *)
Example run_with_numeric_divisions :
  let body := [[lit "1.5"; lit "X"; lit "3"]] in
  let label := lit "F-Anna Svensson" in
  let read_numbers apps :=
    {| division_text := false; rows := rows (read_text apps) |} in
  analyze_trupp (site body) read_numbers no_wide_stage [anna] [] 8 12
  = Run [ Stdout MsgColumns; Stdout MsgSampleTitle; Stdout MsgSampleRows;
          Stdout (MsgFetching label); Sleep;
          WriteCsv (lit "appearances.csv")
            [{| ap_player := label; ap_division := lit "1.5";
                ap_team := lit "X"; ap_matches := lit "3"; ap_goals := [];
                ap_assists := []; ap_points := []; ap_penalty := [] |}];
          Stdout (MsgSavedCsv (lit "appearances.csv")) ]
        (Raise AttributeError).
Proof. vm_compute. reflexivity. Qed.

End RunExamples.

(** * Further properties of the code *)

(** ** The extractor on any page *)

Section ExtractorFacts.
Import Extractor Spec.
Context `{Runtime}.

Lemma by_header_only_trimmed headers tds row :
  by_header_only headers tds row →
  Forall (λ f, strip (f_get f row) = f_get f row) fields.
Proof.
  unfold by_header_only. intros Hrow.
  eapply Forall_impl; [done|]. intros f Hf. simpl in Hf.
  destruct (header_index headers (f_key f) 0) as [i|].
  - destruct (tds !! i) as [td|]; [|done].
    injection Hf as ->. apply strip_idempotent.
  - by rewrite Hf.
Qed.

Lemma page_rows_shape (p : page) (selected : option html_table) :
  select_table p = Ok selected →
  ∃ rows,
    page_rows p = Ok rows
    ∧ (selected = None → rows = [])
    ∧ (∀ t, selected = Some t →
         length rows
         = length (filter (well_formed_row (headers_of t)) (tbody t)))
    ∧ Forall (λ row, Forall (λ f, strip (f_get f row) = f_get f row) fields)
        rows.
Proof.
  unfold page_rows. intros ->. cbn [mbind result_bind].
  destruct selected as [t|].
  - unfold extract_table.
    destruct (extract_rows_by_header (headers_of t) (tbody t) [])
      as (rows & -> & Hall).
    exists rows. split; [done|]. split; [done|]. split.
    + intros t' [= <-]. symmetry. by eapply Forall2_length.
    + clear -Hall.
      induction Hall as [|tds row trs rows Hrow _ IH]; constructor; [|done].
      by eapply by_header_only_trimmed.
  - exists []. by repeat split.
Qed.

Lemma select_table_raises (p : page) (e : exn) :
  select_table p = Raise e ↔ season_table (headings p) = Raise e.
Proof.
  unfold select_table.
  destruct (season_table (headings p)) as [[t|]|e']; by cbn.
Qed.

Lemma page_rows_raises (p : page) (e : exn) :
  page_rows p = Raise e ↔ season_table (headings p) = Raise e.
Proof.
  rewrite <- select_table_raises.
  destruct (select_table p) as [selected|e'] eqn:Hsel.
  - destruct (page_rows_shape p selected Hsel) as (rows & -> & _).
    by split.
  - unfold page_rows. rewrite Hsel. cbn. split; by intros [= ->].
Qed.

(** The loop over the headings raises at the first heading of the season
    that has no sibling, when no heading of the season before it has a
    table for sibling. *)
Lemma season_table_raises (hs : list (list N * sibling)) (e : exn) :
  season_table hs = Raise e ↔
  ∃ pre text reason post,
    hs = pre ++ (text, NoSibling reason) :: post
    ∧ contains SEASON text = true
    ∧ e = FetchError reason
    ∧ Forall (λ h, contains SEASON h.1 = true → h.2 = OtherSibling) pre.
Proof.
  induction hs as [|[text next] hs IH]; simpl.
  - split; [done|]. intros (pre & ? & ? & ? & Hhs & _). by destruct pre.
  - assert ((∃ pre text' reason post,
               (text, next) :: hs = pre ++ (text', NoSibling reason) :: post
               ∧ contains SEASON text' = true
               ∧ e = FetchError reason
               ∧ Forall (λ h, contains SEASON h.1 = true
                              → h.2 = OtherSibling) pre)
            ↔ (contains SEASON text = true
               ∧ ∃ reason, next = NoSibling reason ∧ e = FetchError reason)
              ∨ ((contains SEASON text = true → next = OtherSibling)
                 ∧ ∃ pre text' reason post,
                     hs = pre ++ (text', NoSibling reason) :: post
                     ∧ contains SEASON text' = true
                     ∧ e = FetchError reason
                     ∧ Forall (λ h, contains SEASON h.1 = true
                                    → h.2 = OtherSibling) pre)) as ->.
    { split.
      - intros (pre & text' & reason & post & Hhs & Hs & He & Hpre).
        destruct pre as [|h pre]; simplify_eq/=.
        + left. eauto.
        + right. apply Forall_cons_1 in Hpre as [Hh Hpre]. split; [done|].
          by exists pre, text', reason, post.
      - intros [(Hs & reason & -> & ->)
               | (Hh & pre & text' & reason & post & -> & Hs & -> & Hpre)].
        + by exists [], text, reason, hs.
        + exists ((text, next) :: pre), text', reason, post.
          repeat split; try done. by constructor. }
    rewrite <- IH.
    destruct (contains SEASON text) eqn:Hseason; [destruct next as [t| |r]|].
    + split; [done|]. intros [(_ & ? & ? & _) | (Hh & _)]; [done|].
      by specialize (Hh eq_refl).
    + split; [by right|]. by intros [(_ & ? & ? & _) | (_ & ?)].
    + split.
      * intros [= <-]. left. eauto.
      * intros [(_ & ? & [= <-] & ->) | (Hh & _)]; [done|].
        by specialize (Hh eq_refl).
    + split; [right; by split|]. by intros [(? & _) | (_ & ?)].
Qed.

(** X1: the extractor never fails on an index. It raises only the
    browser's error, and exactly when the first heading of the season
    whose sibling is not another element has no sibling at all. When a
    table, or none, is selected it returns: no table gives no record, and
    a table gives one record, with trimmed fields, for each body row that
    has a cell and at least as many cells as there are headers. *)
Theorem page_rows_index_safe (p : page) :
  (∀ e, page_rows p = Raise e ↔
     ∃ pre text reason post,
       headings p = pre ++ (text, NoSibling reason) :: post
       ∧ contains SEASON text = true
       ∧ e = FetchError reason
       ∧ Forall (λ h, contains SEASON h.1 = true → h.2 = OtherSibling) pre)
  ∧ (∀ selected, select_table p = Ok selected →
       ∃ rows,
         page_rows p = Ok rows
         ∧ (selected = None → rows = [])
         ∧ (∀ t, selected = Some t →
              length rows
              = length (filter (well_formed_row (headers_of t)) (tbody t)))
         ∧ Forall (λ row,
             Forall (λ f, strip (f_get f row) = f_get f row) fields) rows).
Proof.
  split.
  - intros e. rewrite page_rows_raises. apply season_table_raises.
  - apply page_rows_shape.
Qed.

Lemma header_index_last headers key i j :
  header_index headers key i = Some j ↔
  i ≤ j
  ∧ (str_lower <$> headers) !! (j - i) = Some key
  ∧ ∀ k, j - i < k → (str_lower <$> headers) !! k ≠ Some key.
Proof.
  revert i j. induction headers as [|h hs IH]; intros i j; simpl.
  - split; [done | by intros (_ & ? & _)].
  - destruct (header_index hs key (S i)) as [j'|] eqn:Hhs.
    + apply IH in Hhs as (Hle & Hl & Hlast). split.
      * intros [= <-]. split; [lia|].
        replace (j' - i) with (S (j' - S i)) by lia. split; [done|].
        intros [|k] Hk; [lia|]. simpl. apply Hlast. lia.
      * intros (Hij & Hj & Hnone). f_equal.
        destruct (decide (j' - i < j - i)) as [Hlt|Hge].
        -- destruct (j - i) as [|n] eqn:Hn; [lia|]. simpl in Hj.
           destruct (Hlast n); [lia | done].
        -- destruct (decide (j - i < j' - i)) as [Hlt'|?]; [|lia].
           destruct (Hnone (j' - i) Hlt').
           by replace (j' - i) with (S (j' - S i)) by lia.
    + assert (∀ k, (str_lower <$> hs) !! k ≠ Some key) as Hnot.
      { intros k Hk. apply header_index_None in Hhs. apply Hhs.
        by eapply list_elem_of_lookup_2. }
      case_decide as Hh; split.
      * intros [= <-]. rewrite Nat.sub_diag. simpl. split; [done|].
        split; [by rewrite Hh|]. intros [|k] Hk; [lia|]. apply Hnot.
      * intros (Hij & Hj & _). f_equal.
        destruct (j - i) as [|n] eqn:Hn; [lia|]. by destruct (Hnot n).
      * done.
      * intros (Hij & Hj & _).
        destruct (j - i) as [|n] eqn:Hn; [|by destruct (Hnot n)].
        simpl in Hj. congruence.
Qed.

(** X2: the header map sends a name to the position of the last header
    that is the name once lower-cased: of two columns with the same header
    the later one is read. *)
Theorem col_map_last_wins (headers : list (list N)) (key : list N) (i : nat) :
  col_map headers !! key = Some i ↔
  (str_lower <$> headers) !! i = Some key
  ∧ ∀ j, i < j → (str_lower <$> headers) !! j ≠ Some key.
Proof.
  rewrite col_map_lookup, header_index_last, Nat.sub_0_r.
  split; [by intros (_ & ? & ?) | intros [? ?]; split; [lia | done]].
Qed.

End ExtractorFacts.

(** ** The roster loop *)

Section LoopFacts.
Import Frame Pipeline Spec Facts.
Context `{Runtime}.
Variable browse : list N → result Extractor.page.

(** X3: whatever the link, the address handed to the browser is absolute,
    and resolving an address that is already resolved changes nothing. *)
Theorem href_full_absolute (href : list N) :
  starts_with (lit "http") (href_full href) = true
  ∧ href_full (href_full href) = href_full href.
Proof.
  assert (∀ x, starts_with (lit "http") (BASE_URL ++ x) = true
               ∧ starts_with (lit "/") (BASE_URL ++ x) = false) as Hbase.
  { intros x. split; vm_compute; reflexivity. }
  unfold href_full.
  destruct (starts_with (lit "/") href) eqn:Hslash.
  - by destruct (Hbase href) as [-> ->].
  - destruct (starts_with (lit "http") href) eqn:Hhttp.
    + by rewrite Hslash, Hhttp.
    + by destruct (Hbase (lit "/" ++ href)) as [-> ->].
Qed.

Lemma append_rows_app label rows acc :
  append_rows label rows acc = acc ++ append_rows label rows [].
Proof.
  revert acc. induction rows as [|pr rows IH]; intros acc; simpl.
  - by rewrite app_nil_r.
  - destruct (skipped (Extractor.competition pr)); [apply IH|].
    rewrite (IH (acc ++ _)), (IH [_]), <- app_assoc. done.
Qed.

Lemma append_rows_records label rows :
  Forall (λ a, ap_player a = label ∧ real_division a)
    (append_rows label rows []).
Proof.
  induction rows as [|pr rows IH]; simpl; [done|].
  destruct (skipped (Extractor.competition pr)) eqn:Hskip; [done|].
  rewrite append_rows_app. constructor; [|done].
  split; [done|]. unfold real_division, skipped in *. simpl.
  apply orb_false_iff in Hskip as [[_ Hne]%orb_false_iff Hdigit].
  split; [by destruct (strip (Extractor.competition pr))|].
  split; [apply strip_idempotent | done].
Qed.

Lemma pos_prefix_letter position letter :
  pos_prefix position = Ok letter →
  (∃ s, position = VStr s)
  ∧ letter ∈ [lit "F"; lit "B"; lit "M"; lit "?"].
Proof.
  destruct position as [|s| |]; try done. simpl. intros [= <-].
  split; [by eexists|].
  repeat (case_match; [set_solver|]). set_solver.
Qed.

Lemma pos_prefix_raise position e :
  pos_prefix position = Raise e →
  e = AttributeError ∧ ∀ s, position ≠ VStr s.
Proof. destruct position; try done; by intros [= <-]. Qed.

(** One row of the roster with a link and a position text. *)
Lemma collect_linked row rest acc href letter :
  r_href row = VStr href → is_empty (strip href) = false →
  pos_prefix (default (VStr (lit "?")) (r_position row)) = Ok letter →
  let label := letter ++ lit "-"
               ++ py_format (py_or (r_namn row) (r_name row)) in
  ∃ e,
    (e = Sleep ∨ ∃ m, e = Stdout m)
    ∧ collect browse (row :: rest) acc
      = Run (Stdout (MsgFetching label) :: e
             :: log (collect browse rest (acc ++ contribution browse row)))
            (outcome (collect browse rest (acc ++ contribution browse row))).
Proof.
  intros Hhref Hblank Hpos label. rewrite collect_cons.
  unfold contribution. rewrite Hhref, Hblank, Hpos, bind_lift_ok.
  cbv zeta. fold label. rewrite bind_say. cbn [log outcome].
  destruct (fetch_player_appearances browse (href_full href)) as [rows|e].
  - exists Sleep. split; [by left|]. rewrite bind_lift_ok.
    rewrite (bind_ok _ _ (append_rows label rows acc)) by done.
    by rewrite <- append_rows_app.
  - exists (Stdout (MsgFetchFailed label e)). split; [by right; eexists|].
    rewrite (bind_ok _ _ acc) by done. by rewrite app_nil_r.
Qed.

Lemma collect_unlinked row rest acc :
  ¬ has_link row →
  collect browse (row :: rest) acc = collect browse rest acc
  ∧ contribution browse row = [].
Proof.
  intros Hno. rewrite collect_cons. unfold contribution.
  destruct (r_href row) as [|href| |] eqn:Hhref; try done.
  destruct (is_empty (strip href)) eqn:Hblank; [done|].
  destruct Hno. by exists href.
Qed.

Lemma collect_no_position row rest acc :
  has_link row → ¬ position_text row →
  collect browse (row :: rest) acc = Run [] (Raise AttributeError).
Proof.
  intros (href & Hhref & Hblank) Hno. rewrite collect_cons, Hhref, Hblank.
  destruct (pos_prefix _) as [letter|e] eqn:Hpos.
  - apply pos_prefix_letter in Hpos as [Hs _]. by destruct Hno.
  - by apply pos_prefix_raise in Hpos as [-> _].
Qed.

Lemma has_link_dec row : has_link row ∨ ¬ has_link row.
Proof.
  unfold has_link. destruct (r_href row) as [|href| |];
    try (right; by intros (? & ? & _)).
  destruct (is_empty (strip href)) eqn:Hblank.
  - right. intros (? & [= <-] & ?). congruence.
  - left. by exists href.
Qed.

Lemma position_text_ok row :
  position_text row →
  ∃ letter, pos_prefix (default (VStr (lit "?")) (r_position row)) = Ok letter.
Proof. intros [s ->]. by eexists. Qed.

Lemma position_text_dec row : position_text row ∨ ¬ position_text row.
Proof.
  unfold position_text.
  destruct (default _ (r_position row)); try (right; by intros [? ?]).
  left. by eexists.
Qed.

Lemma collect_raises trupp acc e :
  outcome (collect browse trupp acc) = Raise e ↔
  e = AttributeError
  ∧ Exists (λ row, has_link row ∧ ¬ position_text row) trupp.
Proof.
  revert acc. induction trupp as [|row rest IH]; intros acc.
  - split; [done | by intros [_ ?%Exists_nil]].
  - rewrite Exists_cons. destruct (has_link_dec row) as [Hlink|Hno].
    + destruct (position_text_dec row) as [Hpos|Hnopos].
      * destruct Hlink as (href & Hhref & Hblank).
        destruct (position_text_ok row Hpos) as [letter Hletter].
        destruct (collect_linked row rest acc href letter Hhref Hblank
                    Hletter) as (ev & _ & ->).
        cbn [outcome]. rewrite IH. split.
        -- intros [-> Hex]. split; [done | by right].
        -- intros [-> [[_ Hcontra] | Hex]]; [done | by split].
      * rewrite collect_no_position by done. cbn [outcome]. split.
        -- intros [= <-]. split; [done | by left].
        -- by intros [-> _].
    + destruct (collect_unlinked row rest acc Hno) as [-> _].
      rewrite IH. split.
      * intros [-> Hex]. split; [done | by right].
      * intros [-> [[Hcontra _] | Hex]]; [done | by split].
Qed.


(** X4: the loop raises exactly when some row with a link has a position
    that is not a text, and then it is an [AttributeError]: a failed fetch
    never ends the loop. *)
Theorem collect_raises_only_on_position (trupp : list roster_row)
    (acc : list appearance) (e : exn) :
  outcome (collect browse trupp acc) = Raise e ↔
  e = AttributeError
  ∧ Exists (λ row, has_link row ∧ ¬ position_text row) trupp.
Proof. apply collect_raises. Qed.

(** X5: when the loop returns, the flat list is what it started with
    followed by the contribution of each roster row in order; a row
    without a link and a row whose fetch fails contribute nothing; and
    every record added carries a player label and a division that is
    trimmed, not empty and not made of digits only. *)
Theorem collect_contributions (trupp : list roster_row)
    (acc appearances : list appearance) :
  outcome (collect browse trupp acc) = Ok appearances →
  appearances = acc ++ (trupp ≫= contribution browse)
  ∧ Forall (λ a, labelled a ∧ real_division a)
      (trupp ≫= contribution browse).
Proof.
  revert acc. induction trupp as [|row rest IH]; intros acc.
  - intros [= <-]. by rewrite app_nil_r.
  - rewrite bind_cons, Forall_app.
    destruct (has_link_dec row) as [(href & Hhref & Hblank)|Hno].
    + destruct (pos_prefix (default (VStr (lit "?")) (r_position row)))
        as [letter|e] eqn:Hpos.
      * destruct (collect_linked row rest acc href letter Hhref Hblank Hpos)
          as (ev & _ & ->).
        cbn [outcome]. intros [-> Hrest]%IH.
        split; [by rewrite <- app_assoc|]. split; [|done].
        unfold contribution. rewrite Hhref, Hblank, Hpos.
        destruct (fetch_player_appearances _ _); [|done].
        eapply Forall_impl; [apply append_rows_records|].
        intros record [Hlabel Hdiv]. split; [|done].
        eexists _, _. split; [|done].
        by apply pos_prefix_letter in Hpos as [_ ?].
      * rewrite collect_cons, Hhref, Hblank, Hpos. done.
    + destruct (collect_unlinked row rest acc Hno) as [-> ->].
      intros [-> Hrest]%IH. by split.
Qed.


End LoopFacts.

(** One player with a division row and a TOTALT row: both records are the
    player's contribution, labelled with the position letter. *)
Lemma collect_contributions_witness :
  let body := [[lit "Div1"; lit "X"; lit "3"]; [lit "TOTALT"; []; lit "3"]] in
  let record division team matches :=
    {| Frame.ap_player := lit "F-Anna Svensson";
       Frame.ap_division := division; Frame.ap_team := team;
       Frame.ap_matches := matches; Frame.ap_goals := [];
       Frame.ap_assists := []; Frame.ap_points := [];
       Frame.ap_penalty := [] |} in
  let appearances := [record (lit "Div1") (lit "X") (lit "3");
                      record (lit "TOTALT") [] (lit "3")] in
  appearances = [] ++ ([Spec.anna] ≫= Facts.contribution (Spec.site body))
  ∧ Forall (λ a, Facts.labelled a ∧ Facts.real_division a)
      ([Spec.anna] ≫= Facts.contribution (Spec.site body)).
Proof.
  intros body record appearances.
  refine (collect_contributions (Spec.site body) [Spec.anna] [] appearances _).
  vm_compute. reflexivity.
Defined.

(** ** The stage on any frame *)

Section StageFacts.
Import Frame Pipeline Spec Facts.
Context `{Runtime}.
Variable wide_stage : list N → list raw_row → run (list app_rec).


Lemma warnings_are_warnings pv df_total players :
  Forall (λ e, is_warning e = true) (players ≫= warning_of pv df_total).
Proof.
  apply Forall_forall. intros e He.
  by apply elem_of_warnings in He as (p & t & rs & cs & _ & _ & _ & _ & ->).
Qed.


(** X7: the TOTALT rows never reach the matrices: no label of a division is
    empty or TOTALT in any letter case. *)
Theorem totalt_never_a_division (df : list raw_row) :
  let df_app := (split_frames df).2 in
  Forall (λ d, d ≠ [] ∧ str_upper d ≠ TOTALT)
    (p_columns (division_pivot df_app))
  ∧ Forall (λ d, d ≠ [] ∧ str_upper d ≠ TOTALT)
      (p_index (league_pivot df_app)).
Proof.
  assert (∀ d r, r ∈ (split_frames df).2 → a_division r = Some d →
                 d ≠ [] ∧ str_upper d ≠ TOTALT) as Hrow.
  { intros d r Hr Hd.
    destruct (df_app_kept df r Hr) as (d' & Hd' & Hne & _ & Htotal).
    rewrite Hd in Hd'. injection Hd' as <-. split; [done|].
    unfold is_total in Htotal. rewrite Hd in Htotal.
    by apply bool_decide_eq_false in Htotal. }
  split; apply Forall_forall; intros d Hd.
  - apply division_pivot_columns in Hd as (r & Hr & Hdiv). by eapply Hrow.
  - apply league_pivot_index in Hd as (r & Hr & Hdiv). by eapply Hrow.
Qed.

Lemma pivot_table_rectangular krow kcol value aggfunc fill df :
  let pv := pivot_table krow kcol value aggfunc fill df in
  length (p_values pv) = length (p_index pv)
  ∧ Forall (λ row, length row = length (p_columns pv)) (p_values pv).
Proof.
  unfold pivot_table. simpl. split; [by rewrite length_fmap|].
  apply Forall_fmap, Forall_true. intros i. simpl. by rewrite length_fmap.
Qed.

Lemma division_cell_positive (df : list raw_row) player division :
  let df_app := (split_frames df).2 in
  no_overflow df_app →
  (0 <? cell_value (λ r, Some (a_player r)) a_division a_matches int64_sum 0
          df_app player division)%Z = true
  ↔ ∃ r, r ∈ df_app ∧ a_division r = Some division ∧ a_player r = player
         ∧ (0 < a_matches r)%Z.
Proof.
  cbv zeta. intros Hsmall.
  rewrite (proj1 (division_cell_exact df player division Hsmall)), Z.ltb_lt.
  pose proof (df_app_positive df) as Hpos. rewrite Forall_forall in Hpos.
  split.
  - destruct (filter _ _) as [|r rs] eqn:Hf; [simpl; lia|]. intros _.
    assert (r ∈ filter (λ r, a_player r = player
                             ∧ a_division r = Some division)
                  (split_frames df).2) as Hr by (rewrite Hf; by left).
    apply list_elem_of_filter in Hr as [[Hp Hd] Hr].
    destruct (df_app_kept df r Hr) as (_ & _ & _ & Hr' & _). by exists r.
  - intros (r & Hr & Hd & Hp & Hr').
    assert (r ∈ filter (λ r, a_player r = player
                             ∧ a_division r = Some division)
                  (split_frames df).2) as Hin
      by by apply list_elem_of_filter.
    assert (∀ l : list app_rec, r ∈ l →
              Forall (λ r, 0 ≤ a_matches r)%Z l →
              (a_matches r ≤ exact_sum (a_matches <$> l))%Z) as Hle.
    { induction l as [|x l IH]; [by intros ?%elem_of_nil|].
      intros [->|Hl]%elem_of_cons [Hx Hall]%Forall_cons_1;
        rewrite fmap_cons; simpl.
      - pose proof (exact_sum_nonneg (a_matches <$> l)
                      ltac:(by apply Forall_fmap)). lia.
      - specialize (IH Hl Hall). lia. }
    specialize (Hle _ Hin). enough (0 < a_matches r)%Z; [|done].
    assert (Forall (λ r, 0 ≤ a_matches r)%Z
              (filter (λ r, a_player r = player
                            ∧ a_division r = Some division)
                 (split_frames df).2)) as Hall.
    { apply Forall_forall. intros r' [_ ?]%list_elem_of_filter.
      by apply Hpos. }
    specialize (Hle Hall). lia.
Qed.

(** X8: the two matrices are over the same players and divisions, with
    rows and columns exchanged; both are full rectangles; and, when the
    match counts of the working frame add up to less than 2^63, a
    participation cell is 1 exactly when the match-count cell of the same
    player and division is positive. *)
Theorem league_pivot_transposes (df : list raw_row) :
  let df_app := (split_frames df).2 in
  let dp := division_pivot df_app in
  let lp := league_pivot df_app in
  p_index lp = p_columns dp
  ∧ p_columns lp = p_index dp
  ∧ length (p_values dp) = length (p_index dp)
  ∧ Forall (λ row, length row = length (p_columns dp)) (p_values dp)
  ∧ length (p_values lp) = length (p_index lp)
  ∧ Forall (λ row, length row = length (p_columns lp)) (p_values lp)
  ∧ (no_overflow df_app →
     Forall (λ division,
       Forall (λ player,
         ∃ flag count,
           cell lp division player = Ok flag
           ∧ cell dp player division = Ok count
           ∧ flag = if (0 <? count)%Z then 1%Z else 0%Z) (p_columns lp))
       (p_index lp)).
Proof.
  intros df_app dp lp.
  assert (p_index lp = p_columns dp) as Hidx.
  { unfold lp, dp, league_pivot, division_pivot, pivot_table. simpl.
    do 2 f_equal. apply list_filter_iff. intros r. tauto. }
  assert (p_columns lp = p_index dp) as Hcol.
  { unfold lp, dp, league_pivot, division_pivot, pivot_table. simpl.
    do 2 f_equal. apply list_filter_iff. intros r. tauto. }
  split; [done|]. split; [done|].
  destruct (pivot_table_rectangular (λ r, Some (a_player r)) a_division
              a_matches int64_sum 0%Z df_app) as [? ?].
  destruct (pivot_table_rectangular a_division (λ r, Some (a_player r))
              played_flag maxZ 0%Z df_app) as [? ?].
  do 4 (split; [done|]). intros Hsmall.
  apply Forall_forall. intros division Hd.
  apply Forall_forall. intros player Hp.
  assert (player ∈ p_index dp) as Hp' by by rewrite <- Hcol.
  assert (division ∈ p_columns dp) as Hd' by by rewrite <- Hidx.
  eexists _, _. split; [by apply cell_index|].
  split; [apply cell_index; [exact Hp' | exact Hd']|].
  destruct (league_cell_value df_app division player) as [Hflag Hone].
  destruct (0 <? _)%Z eqn:Hpos.
  - apply Hone. by apply (division_cell_positive df player division Hsmall).
  - destruct Hflag as [Hzero | Hflag]; [done|].
    apply Hone, (division_cell_positive df player division Hsmall) in Hflag.
    by pose proof (eq_trans (eq_sym Hflag) Hpos).
Qed.

End StageFacts.

Section TotalsFacts.
Import Frame Pipeline Spec Facts.
Context `{Runtime}.
Variable wide_stage : list N → list raw_row → run (list app_rec).

Lemma fmap_filter_coerce (P : app_rec → Prop) `{∀ r, Decision (P r)}
    (df : list raw_row) :
  coerce <$> filter (λ r, P (coerce r)) df = filter P (coerce <$> df).
Proof.
  induction df as [|r df IH]; [done|].
  rewrite fmap_cons, !filter_cons. case_decide; [|done].
  by rewrite fmap_cons, IH.
Qed.

Lemma filter_filter_same {A} (P : A → Prop) `{∀ x, Decision (P x)}
    (l : list A) :
  filter P (filter P l) = filter P l.
Proof.
  induction l as [|x l IH]; [done|]. rewrite filter_cons.
  case_decide; [|done]. by rewrite filter_cons_True, IH.
Qed.

Lemma filter_filter_none {A} (P Q : A → Prop)
    `{∀ x, Decision (P x)} `{∀ x, Decision (Q x)} (l : list A) :
  (∀ x, P x → Q x → False) → filter P (filter Q l) = [].
Proof.
  intros HPQ. induction l as [|x l IH]; [done|]. rewrite filter_cons.
  case_decide; [|done]. rewrite filter_cons_False; [done|]. eauto.
Qed.

(** Without its TOTALT rows a frame splits into no totals and the same
    working frame. *)
Lemma split_frames_without_totals (df : list raw_row) :
  split_frames (filter (λ r, negb (is_total (coerce r))) df)
  = ([], (split_frames df).2).
Proof.
  unfold split_frames. cbn [snd].
  pose proof (fmap_filter_coerce (λ r, Is_true (negb (is_total r))) df) as ->.
  rewrite filter_filter_same. f_equal.
  apply filter_filter_none. intros r Ht Hn. by destruct (is_total r).
Qed.

Lemma no_totals_no_warnings pv players :
  players ≫= warning_of pv [] = [].
Proof. induction players as [|p players IH]; [done|]. by rewrite bind_cons. Qed.

Lemma filter_warnings pv df_total players :
  filter (λ e, negb (is_warning e)) (players ≫= warning_of pv df_total) = [].
Proof.
  generalize (warnings_are_warnings pv df_total players).
  generalize (players ≫= warning_of pv df_total).
  induction 1 as [|e l He _ IH]; [done|].
  rewrite filter_cons_False; [done|]. rewrite He. by intros [].
Qed.

Lemma counts_fit_filter (P : raw_row → Prop) `{∀ r, Decision (P r)}
    (df : list raw_row) :
  counts_fit df → counts_fit (filter P df).
Proof.
  unfold counts_fit. rewrite !Forall_forall.
  intros Hfit r [_ Hr]%list_elem_of_filter. by apply Hfit.
Qed.

(** X9: when the match counts fit 64-bit integers, the TOTALT rows only
    ever add warnings: the run on the frame without them is the run on
    the frame with its warnings left out, with the same charts, the same
    messages and the same outcome. *)
Theorem totals_only_warn (out_prefix : list N)
    (max_divisions max_leagues : Z) (f : csv_frame) :
  let quiet :=
    {| division_text := division_text f;
       rows := filter (λ r, negb (is_total (coerce r))) (rows f) |} in
  let run := pivot_stage wide_stage out_prefix max_divisions max_leagues f in
  counts_fit (rows f) →
  pivot_stage wide_stage out_prefix max_divisions max_leagues quiet
  = Run (filter (λ e, negb (is_warning e)) (log run)) (outcome run).
Proof.
  cbv zeta. intros Hfit.
  destruct (division_text f) eqn:Htext.
  - rewrite !pivot_stage_run by (done || by apply counts_fit_filter).
    cbv zeta. cbn [rows].
    rewrite split_frames_without_totals. cbn [fst snd].
    destruct (pivot_empty _); [done|]. cbn [log outcome].
    rewrite no_totals_no_warnings, !filter_app, filter_warnings. done.
  - by rewrite !pivot_stage_not_text.
Qed.

End TotalsFacts.

(** ** The whole run on any roster *)

Section RunFacts.
Import Frame Pipeline Spec Facts.
Context `{Runtime}.
Variable browse : list N → result Extractor.page.
Variable read_csv : list appearance → csv_frame.
Variable wide_stage : list N → list raw_row → run (list app_rec).




End RunFacts.

(** TOTALT 20 against divisions of 10 and 5: without the TOTALT row the
    run is the same but for the warning. *)
Lemma totals_only_warn_witness :
  let df := [ Spec.raw (lit "F-P") (lit "A") 10;
              Spec.raw (lit "F-P") (lit "B") 5;
              Spec.raw (lit "F-P") (lit "TOTALT") 20 ] in
  let quiet :=
    {| Frame.division_text := true;
       Frame.rows :=
         filter (λ r, negb (Pipeline.is_total (Pipeline.coerce r))) df |} in
  let run := Pipeline.pivot_stage Spec.no_wide_stage [] 8 12
               (Spec.text_frame df) in
  Frame.Stdout (Frame.MsgMismatch (lit "F-P") 15 20) ∈ Frame.log run
  ∧ Pipeline.pivot_stage Spec.no_wide_stage [] 8 12 quiet
    = Frame.Run (filter (λ e, negb (Facts.is_warning e)) (Frame.log run))
        (Frame.outcome run).
Proof.
  intros df quiet run. split.
  - vm_compute. do 2 right. left.
  - refine (totals_only_warn Spec.no_wide_stage [] 8 12 (Spec.text_frame df)
              _).
    unfold Spec.counts_fit. repeat constructor.
Defined.


(** ** The links of a page *)

Section LinkFacts.
Import Links Facts.

Lemma filter_all {A} (P : A → Prop) `{∀ x, Decision (P x)} (l : list A) :
  (∀ x, P x) → filter P l = l.
Proof.
  intros HP. induction l as [|x l IH]; [done|].
  by rewrite filter_cons_True, IH.
Qed.

Lemma first_occurrences_elem_of {A} `{EqDecision A} (l : list A) (x : A) :
  x ∈ first_occurrences l ↔ x ∈ l.
Proof.
  induction l as [|y l IH]; simpl; [done|].
  rewrite !elem_of_cons, list_elem_of_filter, IH.
  destruct (decide (x = y)); tauto.
Qed.

Lemma first_occurrences_NoDup {A} `{EqDecision A} (l : list A) :
  NoDup (first_occurrences l).
Proof.
  induction l as [|y l IH]; simpl; constructor.
  - rewrite list_elem_of_filter. tauto.
  - by apply NoDup_filter.
Qed.

Lemma first_occurrences_sublist {A} `{EqDecision A} (l : list A) :
  first_occurrences l `sublist_of` l.
Proof.
  induction l as [|y l IH]; simpl; [done|].
  apply sublist_skip. etrans; [apply sublist_filter|done].
Qed.


Lemma candidate_text (a : anchor) (l : link) :
  candidate a = Some l →
  l_text l ≠ [] ∧ strip (l_text l) = l_text l.
Proof.
  unfold candidate. destruct (a_href a); [|done].
  destruct (a_text a) as [text|]; [|done].
  destruct (is_empty (strip text)) eqn:He; [done|].
  intros [= <-]. simpl. split.
  - intros Hnil. by rewrite Hnil in He.
  - apply strip_idempotent.
Qed.

Lemma scan_first_occurrences (anchors : list anchor)
    (seen : gset (list N * list N)) (rows : list link) :
  scan anchors seen rows
  = rows ++ filter (λ l, (l_href l, l_text l) ∉ seen)
                   (first_occurrences (omap candidate anchors)).
Proof.
  revert seen rows. induction anchors as [|a anchors IH]; intros seen rows.
  - simpl. by rewrite app_nil_r.
  - simpl. unfold candidate at 1.
    destruct (a_href a) as [attribute|]; [|apply IH].
    destruct (a_text a) as [text|]; [|apply IH].
    destruct (is_empty (strip text)); [apply IH|].
    simpl. rewrite filter_cons. simpl.
    destruct (decide ((default [] attribute, strip text) ∈ seen)) as [Hin|Hin].
    + rewrite decide_False by tauto.
      rewrite IH, list_filter_filter. do 2 f_equal.
      apply list_filter_iff. intros l. split; [|tauto].
      intros Hl. split; [done|]. intros ->. by apply Hl.
    + rewrite decide_True by done.
      rewrite IH, list_filter_filter, <- app_assoc. simpl. do 3 f_equal.
      apply list_filter_iff. intros [text' href']. simpl.
      rewrite elem_of_union, elem_of_singleton. split.
      * intros Hl. split; [tauto|]. intros [= -> ->]. tauto.
      * intros [Hl Hne] [[= -> ->]|?]; tauto.
Qed.

(** X11: [scrape_generic_links] returns the readable anchors that have a
    text, each once, in the order of their first appearance: no link
    comes twice, every such anchor is in the result, and every text is
    trimmed and not empty. An anchor that cannot be read is skipped. *)
Theorem scrape_generic_links_first_occurrences (anchors : list anchor) :
  let links := scrape_generic_links anchors in
  links = first_occurrences (omap candidate anchors)
  ∧ NoDup links
  ∧ links `sublist_of` omap candidate anchors
  ∧ (∀ l, l ∈ links ↔ ∃ a, a ∈ anchors ∧ candidate a = Some l)
  ∧ Forall (λ l, l_text l ≠ [] ∧ strip (l_text l) = l_text l) links.
Proof.
  cbv zeta.
  assert (scrape_generic_links anchors
          = first_occurrences (omap candidate anchors)) as ->.
  { unfold scrape_generic_links. rewrite scan_first_occurrences. simpl.
    apply filter_all. set_solver. }
  split; [done|]. split; [apply first_occurrences_NoDup|].
  split; [apply first_occurrences_sublist|].
  assert (∀ l, l ∈ first_occurrences (omap candidate anchors)
               ↔ ∃ a, a ∈ anchors ∧ candidate a = Some l) as Hin.
  { intros l. by rewrite first_occurrences_elem_of, list_elem_of_omap. }
  split; [done|].
  apply Forall_forall. intros l [a [_ Ha]]%Hin. by eapply candidate_text.
Qed.

End LinkFacts.

(** ** The roster table *)

Section RosterFacts.
Import Frame Roster Table Facts.

Local Ltac keys_ne :=
  let Heq := fresh in intros Heq; vm_compute in Heq; discriminate Heq.

Lemma idx_map_from_snoc (i : nat) (hs : list (list N)) (h : list N)
    (m : gmap (list N) nat) :
  idx_map_from i (hs ++ [h]) m = <[h := i + length hs]> (idx_map_from i hs m).
Proof.
  revert i m. induction hs as [|h' hs IH]; intros i m; simpl.
  - by rewrite Nat.add_0_r.
  - rewrite IH. f_equal. lia.
Qed.

Lemma idx_map_lookup (hs : list (list N)) (key : list N) (i : nat) :
  idx_map hs !! key = Some i ↔
  hs !! i = Some key ∧ ∀ j, i < j → hs !! j ≠ Some key.
Proof.
  unfold idx_map. revert i.
  induction hs as [|h hs IH] using rev_ind; intros i.
  - simpl. rewrite lookup_empty. split; [done|]. by intros [? _].
  - rewrite idx_map_from_snoc, lookup_insert. simpl. case_decide as Hh.
    + subst h. split.
      * intros [= <-]. split.
        -- by rewrite lookup_app_r, Nat.sub_diag by lia.
        -- intros j Hj. rewrite lookup_ge_None_2; [done|].
           rewrite length_app. simpl. lia.
      * intros [Hi Hlast]. f_equal.
        pose proof (lookup_lt_Some _ _ _ Hi) as Hlt.
        rewrite length_app in Hlt. simpl in Hlt.
        destruct (decide (i = length hs)) as [|Hne]; [done|].
        exfalso. apply (Hlast (length hs)); [lia|].
        by rewrite lookup_app_r, Nat.sub_diag by lia.
    + rewrite IH. split.
      * intros [Hi Hlast]. split.
        -- by apply lookup_app_l_Some.
        -- intros j Hj. destruct (decide (j < length hs)) as [Hlt|Hge].
           ++ rewrite lookup_app_l by done. by apply Hlast.
           ++ rewrite lookup_app_r by lia.
              destruct (j - length hs) as [|k] eqn:Hk; simpl; [|done].
              congruence.
      * intros [Hi Hlast].
        assert (i < length hs) as Hlt.
        { pose proof (lookup_lt_Some _ _ _ Hi) as Hlt.
          rewrite length_app in Hlt. simpl in Hlt.
          destruct (decide (i = length hs)) as [->|]; [|lia].
          rewrite lookup_app_r, Nat.sub_diag in Hi by lia.
          simpl in Hi. congruence. }
        split.
        -- by rewrite lookup_app_l in Hi.
        -- intros j Hj Hjk. apply (Hlast j Hj).
           by apply lookup_app_l_Some.
Qed.

Lemma idx_map_range (hs : list (list N)) (n : nat) :
  map_Forall (λ _ i, i < n) (idx_map hs) ↔ length hs ≤ n.
Proof.
  split.
  - intros Hall. destruct hs as [|h hs _] using rev_ind; [simpl; lia|].
    rewrite length_app. simpl.
    assert (idx_map (hs ++ [h]) !! h = Some (length hs)) as Hlast.
    { apply idx_map_lookup. split.
      - by rewrite lookup_app_r, Nat.sub_diag by lia.
      - intros j Hj. rewrite lookup_ge_None_2; [done|].
        rewrite length_app. simpl. lia. }
    apply Hall in Hlast. lia.
  - intros Hle key i [Hi _]%idx_map_lookup.
    apply lookup_lt_Some in Hi. lia.
Qed.

Lemma text_at_Some (tds : list td) (i : nat) :
  i < length tds → ∃ c, text_at tds i = Some (VStr c)
    ∧ ((λ cell, strip (td_text cell)) <$> tds) !! i = Some c.
Proof.
  intros Hi. destruct (lookup_lt_is_Some_2 tds i Hi) as [cell Hcell].
  exists (strip (td_text cell)). unfold text_at.
  by rewrite list_lookup_fmap, Hcell.
Qed.

Lemma index_Some {A} (l : list A) (i : nat) (x : A) :
  l !! i = Some x → index l i = Ok x.
Proof. unfold index. by intros ->. Qed.

Lemma fill_row_spec (im : gmap (list N) nat) (tds : list td) :
  let cols := (λ cell, strip (td_text cell)) <$> tds in
  (map_Forall (λ _ i, i < length tds) im →
   fill_row im cols = Ok (omap (text_at tds) im))
  ∧ (¬ map_Forall (λ _ i, i < length tds) im →
     fill_row im cols = Raise IndexError).
Proof.
  cbv zeta. unfold fill_row.
  apply (map_fold_weak_ind (λ r m,
    (map_Forall (λ _ i, i < length tds) m → r = Ok (omap (text_at tds) m))
    ∧ (¬ map_Forall (λ _ i, i < length tds) m → r = Raise IndexError))).
  - split; [by rewrite omap_empty|].
    intros Hn. destruct Hn. apply map_Forall_empty.
  - intros h i m r Hm [IHok IHraise]. rewrite map_Forall_insert by done.
    destruct (decide (map_Forall (λ _ i, i < length tds) m)) as [Hall|Hall].
    + rewrite (IHok Hall). simpl. unfold index.
      destruct (decide (i < length tds)) as [Hi|Hi].
      * destruct (text_at_Some tds i Hi) as [c [Ht Hc]]. rewrite Hc. simpl.
        split; [|tauto]. intros _. by rewrite (omap_insert_Some _ _ _ _ _ Ht).
      * rewrite lookup_ge_None_2 by (rewrite length_fmap; lia).
        split; [tauto|done].
    + rewrite (IHraise Hall). simpl. split; [tauto|done].
Qed.

Lemma scrape_row_ok (im : gmap (list N) nat) (tds : list td) :
  kept_row tds → map_Forall (λ _ i, i < length tds) im →
  ∃ row, scrape_row im tds = Ok row ∧ reads im tds row.
Proof.
  intros Hkept Hall. unfold scrape_row. cbv zeta.
  rewrite (proj1 (fill_row_spec im tds) Hall).
  unfold kept_row in Hkept.
  destruct (text_at_Some tds 0 ltac:(lia)) as [c0 [Ht0 Hc0]].
  destruct (text_at_Some tds 1 ltac:(lia)) as [c1 [Ht1 Hc1]].
  rewrite (index_Some _ _ _ Hc0), (index_Some _ _ _ Hc1).
  cbn [mbind mret result_bind result_ret].
  assert (∀ key i, im !! key = Some i →
            ∃ c, text_at tds i = Some (VStr c)) as Hcell.
  { intros key i Hi. apply Hall in Hi.
    destruct (text_at_Some tds i Hi) as [c [? _]]. eauto. }
  assert (∃ a, (if decide (is_Some (im !! K_NAMN))
                then cell ← index tds (default 1 (im !! K_NAMN));
                     mret (td_anchor cell)
                else mret None) = Ok a
               ∧ match a with Some (Some h) => VStr h | _ => VNone end
                 = from_option (link_at tds) VNone (im !! K_NAMN))
    as [a [-> Ha]].
  { destruct (im !! K_NAMN) as [i|] eqn:Hnamn.
    - destruct (decide (is_Some (Some i))) as [_|Hn]; [|destruct Hn; eauto].
      apply Hall in Hnamn.
      destruct (lookup_lt_is_Some_2 tds i Hnamn) as [cell Hcell'].
      change (default 1 (Some i)) with i. rewrite (index_Some _ _ _ Hcell').
      change (from_option (link_at tds) VNone (Some i)) with (link_at tds i).
      unfold link_at. rewrite Hcell'. eexists. split; [done|].
      cbn [fmap option_fmap option_map]. by destruct (td_anchor cell) as [[?|]|].
    - destruct (decide (is_Some (@None nat))) as [[? ?]|_]; [done|].
      by eexists. }
  cbn [mbind mret result_bind result_ret]. eexists. split; [done|].
  rewrite Ha. split; [done|]. repeat split.
  - intros h Hh. unfold reserved in Hh.
    rewrite !not_elem_of_cons in Hh. destruct Hh as (? & ? & ? & ? & _).
    rewrite !lookup_insert_ne by done. by rewrite lookup_omap.
  - rewrite !lookup_insert_ne by keys_ne. rewrite lookup_insert_eq.
    rewrite lookup_omap. destruct (im !! K_NR) as [i|] eqn:Hnr; simpl.
    + destruct (Hcell _ _ Hnr) as [c ->]. done.
    + by rewrite Ht0.
  - rewrite !lookup_insert_ne by keys_ne. rewrite lookup_insert_eq.
    rewrite !lookup_insert_ne by keys_ne.
    rewrite lookup_omap. destruct (im !! K_NAMN) as [i|] eqn:Hnamn; simpl.
    + destruct (Hcell _ _ Hnamn) as [c ->]. done.
    + by rewrite Ht1.
  - rewrite !lookup_insert_ne by keys_ne. rewrite lookup_insert_eq.
    rewrite !lookup_insert_ne by keys_ne. by rewrite lookup_omap.
  - by rewrite lookup_insert_eq.
Qed.

Lemma scrape_row_raise (im : gmap (list N) nat) (tds : list td) :
  ¬ map_Forall (λ _ i, i < length tds) im →
  scrape_row im tds = Raise IndexError.
Proof.
  intros Hall. unfold scrape_row.
  by rewrite (proj2 (fill_row_spec im tds) Hall).
Qed.

Lemma scrape_rows_spec (im : gmap (list N) nat) (trs : list (list td))
    (acc : list (gmap (list N) pyval)) :
  (Forall (λ tds, kept_row tds → map_Forall (λ _ i, i < length tds) im) trs →
   ∃ rows, scrape_rows im trs acc = Ok (acc ++ rows)
     ∧ Forall2 (reads im) (filter kept_row trs) rows)
  ∧ (Exists (λ tds, kept_row tds
                    ∧ ¬ map_Forall (λ _ i, i < length tds) im) trs →
     scrape_rows im trs acc = Raise IndexError).
Proof.
  revert acc. induction trs as [|tds trs IH]; intros acc.
  - split.
    + intros _. exists []. by rewrite app_nil_r.
    + by intros ?%Exists_nil.
  - simpl. rewrite filter_cons.
    destruct (Nat.ltb_spec (length tds) 2) as [Hshort|Hlong].
    + rewrite decide_False by (unfold kept_row; lia). split.
      * intros [_ Hall]%Forall_cons_1. by apply IH.
      * intros [[Hkept _]|Hex]%Exists_cons; [unfold kept_row in Hkept; lia|].
        by apply IH.
    + rewrite decide_True by done.
      destruct (decide (map_Forall (λ _ i, i < length tds) im)) as [Hin|Hout].
      * destruct (scrape_row_ok im tds Hlong Hin) as [row [-> Hrow]].
        cbn [mbind result_bind]. split.
        -- intros [_ Hall]%Forall_cons_1.
           destruct (proj1 (IH (acc ++ [row])) Hall) as [rows [-> Hrows]].
           exists (row :: rows). rewrite <- app_assoc. split; [done|].
           by constructor.
        -- intros [[_ ?]|Hex]%Exists_cons; [done|]. by apply IH.
      * rewrite (scrape_row_raise im tds Hout). cbn [mbind result_bind].
        split; [|done].
        intros [Hall _]%Forall_cons_1. destruct Hout. by apply Hall.
Qed.

Context `{Runtime}.

Lemma scrape_table_spec (t : table) :
  let short := λ tds, kept_row tds ∧ length tds < length (clean_headers t) in
  (¬ Exists short (tbody t) →
   ∃ rows, scrape_table t = Ok rows
     ∧ Forall2 (reads (idx_map (clean_headers t)))
         (filter kept_row (tbody t)) rows)
  ∧ (Exists short (tbody t) → scrape_table t = Raise IndexError).
Proof.
  cbv zeta. unfold scrape_table.
  destruct (scrape_rows_spec (idx_map (clean_headers t)) (tbody t) [])
    as [Hok Hraise].
  split.
  - intros Hnone. apply Hok. apply Forall_forall. intros tds Htds Hkept.
    apply idx_map_range.
    destruct (decide (length (clean_headers t) ≤ length tds)); [done|].
    destruct Hnone. apply Exists_exists. exists tds. split; [done|].
    split; [done|lia].
  - intros Hex. apply Hraise. eapply Exists_impl; [exact Hex|].
    intros tds [Hkept Hlt]. split; [done|].
    rewrite idx_map_range. lia.
Qed.

Lemma short_dec (t : table) :
  let short := λ tds, kept_row tds ∧ length tds < length (clean_headers t) in
  Exists short (tbody t) ∨ ¬ Exists short (tbody t).
Proof.
  cbv zeta. unfold kept_row.
  destruct (decide (Exists (λ tds, 2 ≤ length tds
                                   ∧ length tds < length (clean_headers t))
                      (tbody t))); tauto.
Qed.

(** X12: [scrape_roster] raises only an [IndexError], and exactly when
    some body row with at least two cells has fewer cells than the table
    has headers; a page without a table never raises. *)
Theorem scrape_roster_index_error (first_table : option table) (e : exn) :
  scrape_roster first_table = Raise e ↔
  e = IndexError
  ∧ ∃ t, first_table = Some t
      ∧ Exists (λ tds, kept_row tds
                       ∧ length tds < length (clean_headers t)) (tbody t).
Proof.
  destruct first_table as [t|]; simpl.
  - destruct (scrape_table_spec t) as [Hok Hraise].
    destruct (short_dec t) as [Hex|Hnone].
    + rewrite (Hraise Hex). split.
      * intros [= <-]. eauto.
      * by intros [-> _].
    + destruct (Hok Hnone) as [rows [-> _]]. split; [done|].
      intros [_ [t' [[= <-] Hex]]]. by destruct Hnone.
  - split; [done|]. by intros [_ [t [? _]]].
Qed.

(** X13: a header resolves to the last column whose cleaned header is
    that name, so the later of two columns with one name wins. *)
Theorem idx_map_last_wins (clean_headers : list (list N)) (key : list N)
    (i : nat) :
  idx_map clean_headers !! key = Some i ↔
  clean_headers !! i = Some key
  ∧ ∀ j, i < j → clean_headers !! j ≠ Some key.
Proof. apply idx_map_lookup. Qed.

(** X14: when [scrape_roster] returns, its rows are the body rows with at
    least two cells, in order, and each holds: under every header the
    trimmed text of that header's cell; as [player_id] the cell under
    [nr], else the first cell; as [name] the cell under [namn], else the
    second cell; as [position] the cell under [position], else [None]; as
    [href] the link of the cell under [namn], and [None] without such a
    header. *)
Theorem scrape_roster_rows (t : table) (rows : list (gmap (list N) pyval)) :
  scrape_roster (Some t) = Ok rows →
  Forall2 (reads (idx_map (clean_headers t)))
    (filter kept_row (tbody t)) rows.
Proof.
  simpl. intros Hrows.
  destruct (scrape_table_spec t) as [Hok Hraise].
  destruct (short_dec t) as [Hex|Hnone].
  - by rewrite (Hraise Hex) in Hrows.
  - destruct (Hok Hnone) as [rows' [Hrows' Hreads]]. congruence.
Qed.

Lemma idx_map_dom (hs : list (list N)) (key : list N) :
  is_Some (idx_map hs !! key) ↔ key ∈ hs.
Proof.
  unfold idx_map. induction hs as [|h hs IH] using rev_ind.
  - simpl. rewrite lookup_empty, elem_of_nil. split; [by intros [? ?]|done].
  - rewrite idx_map_from_snoc, lookup_insert, elem_of_app,
      list_elem_of_singleton, <- IH.
    case_decide; split; eauto. intros [?|?]; [done|congruence].
Qed.

Lemma Forall2_Exists {A B} (R : A → B → Prop) (P : A → Prop) (Q : B → Prop)
    (l : list A) (k : list B) :
  Forall2 R l k → (∀ x y, R x y → P x ↔ Q y) → Exists P l ↔ Exists Q k.
Proof.
  intros HR HPQ. induction HR as [|x y l k Hxy _ IH]; [by rewrite !Exists_nil|].
  by rewrite !Exists_cons, IH, (HPQ x y Hxy).
Qed.

Lemma reads_has_link (im : gmap (list N) nat) (tds : list td)
    (row : gmap (list N) pyval) :
  reads im tds row →
  has_link (roster_row_of row) ↔
  ∃ i href, im !! K_NAMN = Some i ∧ link_at tds i = VStr href
    ∧ is_empty (strip href) = false.
Proof.
  intros (_ & _ & _ & _ & _ & Hhref). unfold has_link, roster_row_of.
  cbn [r_href]. rewrite Hhref. cbn [default from_option].
  destruct (im !! K_NAMN) as [i|]; cbn [from_option].
  - split.
    + intros [href [? ?]]. eauto.
    + intros (? & href & [= <-] & ? & ?). eauto.
  - split; [by intros [? [? _]]|by intros (? & ? & ? & _)].
Qed.

Lemma reads_position_text (im : gmap (list N) nat) (tds : list td)
    (row : gmap (list N) pyval) :
  reads im tds row →
  position_text (roster_row_of row) ↔ is_Some (im !! K_POSITION).
Proof.
  intros (Hall & _ & _ & _ & Hpos & _). unfold position_text, roster_row_of.
  cbn [r_position]. rewrite Hpos.
  destruct (im !! K_POSITION) as [i|] eqn:Hi.
  - apply Hall in Hi. destruct (text_at_Some tds i Hi) as [c [Hc _]].
    cbn [mbind option_bind]. rewrite Hc. split; eauto.
  - split; [by intros [? ?]|by intros [? ?]].
Qed.

Section Composition.
Import Pipeline.
Variable browse : list N → result Extractor.page.
Variable read_csv : list appearance → csv_frame.
Variable wide_stage : list N → list raw_row → run (list app_rec).

Lemma collect_all_unlinked (trupp : list roster_row) (acc : list appearance) :
  Forall (λ row, ¬ has_link row) trupp →
  collect browse trupp acc = Run [] (Ok acc).
Proof.
  induction 1 as [|row trupp Hrow _ IH]; [done|].
  by rewrite (proj1 (collect_unlinked browse row trupp acc Hrow)).
Qed.

(** With no position text in any row, the loop raises at the first row
    with a link, before it fetches anything. *)
Lemma collect_first_link (trupp : list roster_row) (acc : list appearance) :
  Forall (λ row, ¬ position_text row) trupp →
  Exists has_link trupp →
  collect browse trupp acc = Run [] (Raise AttributeError).
Proof.
  intros Hpos Hex. induction Hpos as [|row trupp Hrow Hpos IH].
  - by apply Exists_nil in Hex.
  - destruct (has_link_dec row) as [Hlink|Hno].
    + by apply collect_no_position.
    + rewrite (proj1 (collect_unlinked browse row trupp acc Hno)).
      apply IH. by apply Exists_cons in Hex as [?|?].
Qed.

(** X15: the analysis run on a scraped roster, as [main] does with
    [--team-url]. The roster loop raises exactly when the table has no
    [position] header and some kept row has a link under [namn]; the run
    then raises the [AttributeError] after its three opening lines,
    before anything is fetched. When no kept row has such a link, the run
    fetches nothing and only reports that no appearance rows were
    found. *)
Theorem analyze_scraped_roster (t : table)
    (scraped : list (gmap (list N) pyval)) (out_prefix : list N)
    (max_divisions max_leagues : Z) :
  scrape_roster (Some t) = Ok scraped →
  let im := idx_map (clean_headers t) in
  let trupp := roster_row_of <$> scraped in
  let run := analyze_trupp browse read_csv wide_stage trupp out_prefix
               max_divisions max_leagues in
  (∀ e, outcome (collect browse trupp []) = Raise e ↔
     e = AttributeError ∧ (K_POSITION ∉ clean_headers t)
     ∧ Exists (linked im) (tbody t))
  ∧ ((K_POSITION ∉ clean_headers t) → Exists (linked im) (tbody t) →
     run = Run [Stdout MsgColumns; Stdout MsgSampleTitle;
                Stdout MsgSampleRows] (Raise AttributeError))
  ∧ (¬ Exists (linked im) (tbody t) →
     run = Run [Stdout MsgColumns; Stdout MsgSampleTitle;
                Stdout MsgSampleRows; Stdout MsgNoAppearances] (Ok [])).
Proof.
  intros Hrows. cbv zeta.
  assert (Forall2 (reads (idx_map (clean_headers t)))
            (filter kept_row (tbody t)) scraped) as Hreads.
  { simpl in Hrows. destruct (scrape_table_spec t) as [Hok Hraise].
    destruct (short_dec t) as [Hex|Hnone].
    - by rewrite (Hraise Hex) in Hrows.
    - destruct (Hok Hnone) as [rows' [Hrows' ?]]. congruence. }
  set (im := idx_map (clean_headers t)) in *.
  assert (∀ P : roster_row → Prop,
            Exists P (roster_row_of <$> scraped)
            ↔ Exists (λ row, P (roster_row_of row)) scraped) as Hfmap.
  { intros P. rewrite !Exists_exists. setoid_rewrite list_elem_of_fmap.
    split.
    - intros (? & (row & -> & ?) & ?). eauto.
    - intros (row & ? & ?). eauto. }
  assert (∀ Q : list td → Prop,
            Exists Q (filter kept_row (tbody t))
            ↔ Exists (λ tds, kept_row tds ∧ Q tds) (tbody t)) as Hfilter.
  { intros Q. rewrite !Exists_exists. setoid_rewrite list_elem_of_filter.
    split; intros (tds & ? & ?); exists tds; tauto. }
  assert (Exists has_link (roster_row_of <$> scraped)
          ↔ Exists (linked im) (tbody t)) as Hlinked.
  { rewrite Hfmap.
    rewrite <- (Forall2_Exists _
                 (λ tds, ∃ i href, im !! K_NAMN = Some i
                    ∧ link_at tds i = VStr href
                    ∧ is_empty (strip href) = false) _ _ _ Hreads).
    - apply Hfilter.
    - intros tds row Hr. symmetry. by apply reads_has_link. }
  assert (∀ row, row ∈ scraped →
            position_text (roster_row_of row) ↔ K_POSITION ∈ clean_headers t)
    as Hposition.
  { intros row [k Hk]%list_elem_of_lookup_1.
    destruct (Forall2_lookup_r _ _ _ _ _ Hreads Hk) as (tds & _ & Hr).
    rewrite (reads_position_text _ _ _ Hr). apply idx_map_dom. }
  assert (∀ e, outcome (collect browse (roster_row_of <$> scraped) [])
               = Raise e ↔
               e = AttributeError ∧ (K_POSITION ∉ clean_headers t)
               ∧ Exists (linked im) (tbody t)) as Hraises.
  { intros e. rewrite collect_raises, <- Hlinked, !Hfmap. split.
    - intros [-> Hex]. split; [done|].
      apply Exists_exists in Hex as (row & Hin & Hlink & Hn). split.
      + intros Hpos. by apply Hn, Hposition.
      + apply Exists_exists. eauto.
    - intros (-> & Hn & Hex). split; [done|].
      apply Exists_exists in Hex as (row & Hin & Hlink).
      apply Exists_exists. exists row. split; [done|]. split; [done|].
      by rewrite Hposition. }
  split; [done|]. split.
  - intros Hn Hex. rewrite analyze_trupp_run. cbv zeta.
    rewrite collect_first_link; [done| |by apply Hlinked].
    apply Forall_forall. intros ? (row & -> & Hin)%list_elem_of_fmap.
    by rewrite Hposition.
  - intros Hnone. rewrite analyze_trupp_run. cbv zeta.
    rewrite collect_all_unlinked; [done|].
    apply Forall_forall. intros row Hin Hlink. apply Hnone, Hlinked.
    apply Exists_exists. eauto.
Qed.

End Composition.
End RosterFacts.

(** The roster of the examples: a header with a sort icon, a player with a
    link, and a row of one cell that is skipped. *)
Lemma scrape_roster_rows_witness :
  let cell text := {| Roster.td_text := text; Roster.td_anchor := None |} in
  let t := {| Roster.thead :=
                Some [lit "Nr"; lit "Namn unfold_more"; lit "Position"];
              Roster.tbody :=
                [[cell (lit "7");
                  {| Roster.td_text := lit " Anna Svensson ";
                     Roster.td_anchor := Some (Some (lit "/spelare/5")) |};
                  cell (lit "Forward")];
                 [cell (lit "Ledare")]] |} in
  let row : gmap (list N) pyval :=
    list_to_map [(lit "nr", VStr (lit "7"));
                 (lit "namn", VStr (lit "Anna Svensson"));
                 (lit "position", VStr (lit "Forward"));
                 (lit "player_id", VStr (lit "7"));
                 (lit "name", VStr (lit "Anna Svensson"));
                 (lit "href", VStr (lit "/spelare/5"))] in
  Forall2 (Table.reads (Roster.idx_map (Roster.clean_headers t)))
    (filter Table.kept_row (Roster.tbody t)) [row].
Proof.
  intros cell t row.
  refine (scrape_roster_rows t [row] _).
  vm_compute. reflexivity.
Defined.

(** A roster table without a position column: the player with a link makes
    the analysis raise. *)
Lemma analyze_scraped_roster_witness :
  let t := {| Roster.thead := Some [lit "Nr"; lit "Namn"];
              Roster.tbody :=
                [[{| Roster.td_text := lit "7"; Roster.td_anchor := None |};
                  {| Roster.td_text := lit "Anna Svensson";
                     Roster.td_anchor := Some (Some (lit "/spelare/5")) |}]]
           |} in
  let row : gmap (list N) pyval :=
    list_to_map [(lit "nr", VStr (lit "7"));
                 (lit "namn", VStr (lit "Anna Svensson"));
                 (lit "position", VNone);
                 (lit "player_id", VStr (lit "7"));
                 (lit "name", VStr (lit "Anna Svensson"));
                 (lit "href", VStr (lit "/spelare/5"))] in
  let im := Roster.idx_map (Roster.clean_headers t) in
  let trupp := Roster.roster_row_of <$> [row] in
  let run := Pipeline.analyze_trupp (Spec.site []) Spec.read_text
               Spec.no_wide_stage trupp [] 8 12 in
  (∀ e, Frame.outcome (Pipeline.collect (Spec.site []) trupp []) = Raise e ↔
     e = AttributeError ∧ (Roster.K_POSITION ∉ Roster.clean_headers t)
     ∧ Exists (Table.linked im) (Roster.tbody t))
  ∧ ((Roster.K_POSITION ∉ Roster.clean_headers t) →
     Exists (Table.linked im) (Roster.tbody t) →
     run = Frame.Run [Frame.Stdout Frame.MsgColumns;
                      Frame.Stdout Frame.MsgSampleTitle;
                      Frame.Stdout Frame.MsgSampleRows]
             (Raise AttributeError))
  ∧ (¬ Exists (Table.linked im) (Roster.tbody t) →
     run = Frame.Run [Frame.Stdout Frame.MsgColumns;
                      Frame.Stdout Frame.MsgSampleTitle;
                      Frame.Stdout Frame.MsgSampleRows;
                      Frame.Stdout Frame.MsgNoAppearances] (Ok [])).
Proof.
  intros t row im trupp run.
  refine (analyze_scraped_roster (Spec.site []) Spec.read_text
            Spec.no_wide_stage t [row] [] 8 12 _).
  vm_compute. reflexivity.
Defined.

(** ** Cleaning the roster *)

Section CleanFacts.
Import Frame Processing Clean.

Variable nfkc : list N → list N.

Hypothesis nfkc_idempotent : ∀ s, nfkc (nfkc s) = nfkc s.
Hypothesis nfkc_substring : ∀ a b c,
  nfkc (a ++ b ++ c) = a ++ b ++ c → nfkc b = b.
Hypothesis nfkc_space : ∀ a b,
  nfkc a = a → nfkc b = b → nfkc (a ++ [SPACE] ++ b) = a ++ [SPACE] ++ b.

Lemma normalize_name_twice (s : list N) :
  normalize_name nfkc (normalize_name nfkc s) = normalize_name nfkc s.
Proof.
  destruct s as [|c s]; [done|].
  destruct (normalize_name_words nfkc (c :: s))
    as (ws & Hws & Hr & Heq); [done|].
  rewrite Hr. apply normalize_name_of_normal; [done|].
  rewrite Heq. by apply nfkc_collapse.
Qed.

Lemma normalize_cell_str (s : list N) :
  normalize_cell nfkc (VStr s) = Ok (VStr (normalize_name nfkc s)).
Proof. by destruct s. Qed.

Lemma normalize_cell_raises (v : pyval) (e : exn) :
  normalize_cell nfkc v = Raise e ↔
  e = TypeError ∧ Pipeline.truthy v = true ∧ ∀ s, v ≠ VStr s.
Proof.
  unfold normalize_cell. destruct (Pipeline.truthy v) eqn:Hv; simpl.
  - destruct v; split; try done; try (by intros [= <-]);
      try (by intros (-> & _ & _)).
    intros (_ & _ & Hs). by destruct (Hs s).
  - split; [done|]. by intros (_ & ? & _).
Qed.

Lemma normalize_cell_twice (v v' : pyval) :
  normalize_cell nfkc v = Ok v' → normalize_cell nfkc v' = Ok v'.
Proof.
  unfold normalize_cell at 1. destruct (Pipeline.truthy v) eqn:Hv; simpl.
  - destruct v; try done. intros [= <-].
    by rewrite normalize_cell_str, normalize_name_twice.
  - intros [= <-]. unfold normalize_cell. by rewrite Hv.
Qed.

Lemma apply_name_raises (rows : list (gmap (list N) pyval)) (e : exn) :
  apply_name nfkc rows = Raise e ↔
  e = TypeError
  ∧ Exists (λ row, Pipeline.truthy (cell_of row NAME) = true
                   ∧ ∀ s, cell_of row NAME ≠ VStr s) rows.
Proof.
  induction rows as [|row rows IH]; simpl.
  - split; [done|]. by intros [_ ?%Exists_nil].
  - rewrite Exists_cons.
    destruct (normalize_cell nfkc (cell_of row NAME)) as [v|e'] eqn:Hv;
      cbn [mbind result_bind].
    + assert (¬ (Pipeline.truthy (cell_of row NAME) = true
                 ∧ ∀ s, cell_of row NAME ≠ VStr s)) as Hgood.
      { intros Hbad.
        assert (normalize_cell nfkc (cell_of row NAME) = Raise TypeError)
          as Hr by (by apply normalize_cell_raises).
        congruence. }
      destruct (apply_name nfkc rows) as [rows'|e'] eqn:Hrows;
        cbn [mbind result_bind mret result_ret].
      * split; [done|]. intros [-> [?|Hex]]; [done|].
        by assert (Ok rows' = Raise TypeError) by (by apply IH).
      * split.
        -- intros [= <-]. destruct (proj1 IH eq_refl) as [-> ?]. tauto.
        -- intros [-> [?|Hex]]; [done|].
           by rewrite (proj2 IH (conj eq_refl Hex)).
    + apply normalize_cell_raises in Hv as (-> & ? & ?). split.
      * intros [= <-]. tauto.
      * by intros [-> _].
Qed.

Lemma apply_name_rows (rows rows' : list (gmap (list N) pyval)) :
  apply_name nfkc rows = Ok rows' →
  Forall2 (λ row row', ∃ v, normalize_cell nfkc (cell_of row NAME) = Ok v
                            ∧ row' = <[NAME := v]> row) rows rows'.
Proof.
  revert rows'. induction rows as [|row rows IH]; intros rows'; simpl.
  - intros [= <-]. constructor.
  - destruct (normalize_cell nfkc (cell_of row NAME)) as [v|] eqn:Hv; [|done].
    cbn [mbind result_bind].
    destruct (apply_name nfkc rows) as [rest|]; [|done].
    cbn [mbind result_bind mret result_ret]. intros [= <-].
    constructor; [by exists v|by apply IH].
Qed.

Lemma apply_name_twice (rows rows' : list (gmap (list N) pyval)) :
  apply_name nfkc rows = Ok rows' → apply_name nfkc rows' = Ok rows'.
Proof.
  intros Hrows%apply_name_rows.
  induction Hrows as [|row row' rows rows' (v & Hv & ->) _ IH]; [done|].
  cbn [apply_name].
  assert (cell_of (<[NAME := v]> row) NAME = v) as ->
    by (unfold cell_of; by rewrite lookup_insert_eq).
  rewrite (normalize_cell_twice _ _ Hv). cbn [mbind result_bind].
  rewrite IH. cbn [mbind result_bind mret result_ret].
  by rewrite insert_insert_eq.
Qed.

(** X16: [clean_trupp] raises only a [TypeError], and exactly when the
    frame is not empty, has a [name] column, and some name is neither a
    string nor falsy (a NaN or a number other than zero); [None] and an
    empty frame never raise. *)
Theorem clean_trupp_type_error (df : option frame) (e : exn) :
  clean_trupp nfkc df = Raise e ↔
  e = TypeError
  ∧ ∃ f, df = Some f ∧ frame_empty f = false ∧ NAME ∈ f_columns f
      ∧ Exists (λ row, Pipeline.truthy (cell_of row NAME) = true
                       ∧ ∀ s, cell_of row NAME ≠ VStr s) (f_rows f).
Proof.
  destruct df as [f|]; simpl.
  - destruct (frame_empty f) eqn:Hempty.
    + split; [done|]. intros [_ (f' & [= <-] & ? & _)]. congruence.
    + destruct (decide (NAME ∈ f_columns f)) as [Hname|Hname].
      * destruct (apply_name nfkc (f_rows f)) as [rows|e'] eqn:Hrows;
          cbn [mbind result_bind mret result_ret].
        -- split; [done|]. intros [-> (f' & [= <-] & _ & _ & Hex)].
           by assert (Ok rows = Raise TypeError)
             by (rewrite <- Hrows; by apply apply_name_raises).
        -- apply apply_name_raises in Hrows as [-> Hex]. split.
           ++ intros [= <-]. eauto 10.
           ++ by intros [-> _].
      * split; [done|]. by intros [_ (f' & [= <-] & _ & ? & _)].
  - split; [done|]. by intros [_ (f & ? & _)].
Qed.

(** X17: cleaning a cleaned frame changes nothing: when [clean_trupp]
    returns a frame, it returns that frame unchanged when applied to it
    again. This rests on the three facts about NFKC above. *)
Theorem clean_trupp_idempotent (df df' : option frame) :
  clean_trupp nfkc df = Ok df' → clean_trupp nfkc df' = Ok df'.
Proof.
  destruct df as [f|]; simpl; [|by intros [= <-]].
  destruct (frame_empty f) eqn:Hempty.
  { intros [= <-]. simpl. by rewrite Hempty. }
  destruct (decide (NAME ∈ f_columns f)) as [Hname|Hname].
  - destruct (apply_name nfkc (f_rows f)) as [rows|] eqn:Hrows; [|done].
    cbn [mbind result_bind mret result_ret]. intros [= <-]. simpl.
    assert (frame_empty {| f_columns := f_columns f; f_rows := rows |}
            = false) as ->.
    { unfold frame_empty in *. cbn [f_columns f_rows].
      apply orb_false_iff in Hempty as [-> Hr]. simpl.
      apply bool_decide_eq_false in Hr. apply bool_decide_eq_false.
      intros ->. apply apply_name_rows in Hrows.
      by apply Forall2_nil_inv_r in Hrows. }
    rewrite decide_True by done.
    by rewrite (apply_name_twice _ _ Hrows).
  - intros [= <-]. simpl. rewrite Hempty. by rewrite decide_False.
Qed.

Section Scraped.
Import Roster Table.
Context `{Runtime}.

Lemma apply_name_scraped (im : gmap (list N) nat) (trs : list (list td))
    (rows : list (gmap (list N) pyval)) :
  Forall kept_row trs → Forall2 (reads im) trs rows →
  ∃ rows', apply_name nfkc rows = Ok rows'
    ∧ Forall2 (λ tds row', ∃ s,
        text_at tds (default 1 (im !! K_NAMN)) = Some (VStr s)
        ∧ row' !! NAME = Some (VStr (normalize_name nfkc s))) trs rows'.
Proof.
  intros Hkept Hreads. induction Hreads as [|tds row trs rows Hr _ IH].
  - exists []. split; [done|constructor].
  - apply Forall_cons_1 in Hkept as [Hk Hkept].
    destruct (IH Hkept) as [rows' [Hrows' Hnames]].
    destruct Hr as (Hall & _ & _ & Hname & _).
    assert (default 1 (im !! K_NAMN) < length tds) as Hlt.
    { destruct (im !! K_NAMN) as [i|] eqn:Hi; [by apply Hall in Hi|].
      unfold kept_row in Hk. simpl. lia. }
    destruct (text_at_Some tds _ Hlt) as [s [Hs _]].
    exists (<[NAME := VStr (normalize_name nfkc s)]> row :: rows').
    split.
    + cbn [apply_name]. unfold cell_of.
      change NAME with K_NAME. rewrite Hname, Hs. cbn [default from_option id].
      rewrite normalize_cell_str. cbn [mbind result_bind].
      by rewrite Hrows'.
    + constructor; [|done]. exists s. split; [done|].
      by rewrite lookup_insert_eq.
Qed.

(** X18: cleaning a scraped roster, as [main.py] does, never raises:
    every scraped name is a string. The cleaned frame has one row for each
    kept row of the table, and its name is the normalised text of the cell
    under [namn], or of the second cell without such a header. *)
Theorem clean_scraped_roster (t : table)
    (rows : list (gmap (list N) pyval)) :
  scrape_roster (Some t) = Ok rows →
  ∃ f, clean_trupp nfkc (Some (data_frame rows)) = Ok (Some f)
    ∧ f_columns f = f_columns (data_frame rows)
    ∧ Forall2 (λ tds row', ∃ s,
        text_at tds (default 1 (idx_map (clean_headers t) !! K_NAMN))
        = Some (VStr s)
        ∧ row' !! NAME = Some (VStr (normalize_name nfkc s)))
        (filter kept_row (tbody t)) (f_rows f).
Proof.
  intros Hrows.
  assert (Forall2 (reads (idx_map (clean_headers t)))
            (filter kept_row (tbody t)) rows) as Hreads.
  { simpl in Hrows. destruct (scrape_table_spec t) as [Hok Hraise].
    destruct (short_dec t) as [Hex|Hnone].
    - by rewrite (Hraise Hex) in Hrows.
    - destruct (Hok Hnone) as [rows' [Hrows' ?]]. congruence. }
  assert (Forall kept_row (filter kept_row (tbody t))) as Hkept.
  { apply Forall_forall. by intros tds [? _]%list_elem_of_filter. }
  destruct (apply_name_scraped _ _ _ Hkept Hreads) as [rows' [Hrows' Hnames]].
  assert (rows ≠ [] → NAME ∈ f_columns (data_frame rows)) as Hin.
  { destruct Hreads as [|tds row trs rows Hr _]; [done|]. intros _.
    destruct Hr as (_ & _ & _ & Hname & _).
    apply Forall2_cons_inv_l in Hnames as (? & ? & (s & Hs & _) & _).
    cbn [data_frame f_columns fmap list_fmap union_list foldr].
    apply elem_of_union. left. apply elem_of_dom.
    change NAME with K_NAME. rewrite Hname, Hs. eauto. }
  unfold clean_trupp.
  destruct (frame_empty (data_frame rows)) eqn:Hempty.
  - exists (data_frame rows). split; [done|]. split; [done|].
    assert (rows = []) as ->.
    { destruct rows as [|row rows]; [done|]. exfalso.
      specialize (Hin ltac:(done)).
      unfold frame_empty in Hempty.
      apply orb_true_iff in Hempty as [Hc|Hr].
      - apply bool_decide_eq_true in Hc. rewrite Hc in Hin.
        by apply not_elem_of_empty in Hin.
      - by apply bool_decide_eq_true in Hr. }
    apply Forall2_nil_inv_r in Hreads. rewrite Hreads. constructor.
  - assert (rows ≠ []) as Hne.
    { unfold frame_empty in Hempty.
      apply orb_false_iff in Hempty as [_ Hr].
      by apply bool_decide_eq_false in Hr. }
    rewrite decide_True by auto.
    change (f_rows (data_frame rows)) with rows. rewrite Hrows'.
    cbn [mbind result_bind mret result_ret]. eexists. split; [done|].
    by split.
Qed.

End Scraped.
End CleanFacts.

(** A frame with one name to clean. *)
Lemma clean_trupp_idempotent_witness :
  let frame_of name : option Clean.frame :=
    Some {| Clean.f_columns := {[Clean.NAME]};
            Clean.f_rows := [{[Clean.NAME := VStr name]}] |} in
  Clean.clean_trupp Processing.nfkc_fragment (frame_of (lit "Anna Svensson"))
  = Ok (frame_of (lit "Anna Svensson")).
Proof.
  intros frame_of.
  refine (clean_trupp_idempotent Processing.nfkc_fragment
            nfkc_fragment_idempotent nfkc_fragment_substring
            nfkc_fragment_space
            (frame_of (lit " Anna" ++ [160%N] ++ lit " Svensson "))
            (frame_of (lit "Anna Svensson")) _).
  vm_compute. reflexivity.
Defined.

(** The roster of the examples, cleaned. *)
Lemma clean_scraped_roster_witness :
  let t := {| Roster.thead := Some [lit "Nr"; lit "Namn"];
              Roster.tbody :=
                [[{| Roster.td_text := lit "7"; Roster.td_anchor := None |};
                  {| Roster.td_text := lit "Anna  Svensson";
                     Roster.td_anchor := Some (Some (lit "/spelare/5")) |}]]
           |} in
  let row : gmap (list N) pyval :=
    list_to_map [(lit "nr", VStr (lit "7"));
                 (lit "namn", VStr (lit "Anna  Svensson"));
                 (lit "position", VNone);
                 (lit "player_id", VStr (lit "7"));
                 (lit "name", VStr (lit "Anna  Svensson"));
                 (lit "href", VStr (lit "/spelare/5"))] in
  ∃ f, Clean.clean_trupp Processing.nfkc_fragment
         (Some (Clean.data_frame [row])) = Ok (Some f)
    ∧ Clean.f_columns f = Clean.f_columns (Clean.data_frame [row])
    ∧ Forall2 (λ tds row', ∃ s,
        Table.text_at tds
          (default 1 (Roster.idx_map (Roster.clean_headers t)
                      !! Roster.K_NAMN))
        = Some (VStr s)
        ∧ row' !! Clean.NAME
          = Some (VStr (Processing.normalize_name Processing.nfkc_fragment s)))
        (filter Table.kept_row (Roster.tbody t)) (Clean.f_rows f).
Proof.
  intros t row.
  refine (clean_scraped_roster Processing.nfkc_fragment t [row] _).
  vm_compute. reflexivity.
Defined.

(** ** Division names *)

Section DivisionFacts.
Import Division.
Context `{Runtime}.

(** [str.lower] leaves no capital letter. *)
Hypothesis lower_no_capitals :
  ∀ s, Forall (λ c, capital c = false) (str_lower s).

Lemma code_plain (body : list N) :
  Forall (λ c, capital c = false) body →
  code body = true ↔
  1 ≤ length body ≤ 12
  ∧ Forall (λ c, (48 ≤ c ≤ 57)%N ∨ c = 45%N ∨ c = 32%N) body.
Proof.
  intros Hlow. unfold code. rewrite !andb_true_iff, forallb_forall.
  rewrite Nat.leb_le, Nat.leb_le, Forall_forall.
  split.
  - intros [[? ?] Hall]. split; [lia|]. intros c Hc.
    rewrite Forall_forall in Hlow. pose proof (Hlow c Hc) as Hcap.
    apply list_elem_of_In, Hall in Hc. unfold code_char in Hc.
    rewrite Hcap in Hc. simpl in Hc. bool_to_prop; lia.
  - intros [? Hall]. split; [lia|]. intros c Hc%list_elem_of_In.
    apply Hall in Hc. unfold code_char.
    destruct (capital c); [done|]. simpl.
    destruct Hc as [[Hlo Hhi]|[->| ->]]; [|done|done].
    apply N.leb_le in Hlo, Hhi. by rewrite Hlo, Hhi.
Qed.

Lemma short_code_plain (text : list N) :
  Forall (λ c, capital c = false) text →
  short_code text = true ↔
  ∃ body, (text = body ∨ text = body ++ [10%N])
    ∧ 1 ≤ length body ≤ 12
    ∧ Forall (λ c, (48 ≤ c ≤ 57)%N ∨ c = 45%N ∨ c = 32%N) body.
Proof.
  intros Hlow. unfold short_code. rewrite orb_true_iff. split.
  - intros [Hcode|Hcode].
    + exists text. split; [by left|]. by apply code_plain.
    + destruct (reverse text) as [|c body] eqn:Hrev; [done|].
      assert (text = reverse body ++ [c]) as Htext.
      { by rewrite <- (reverse_involutive text), Hrev, reverse_cons. }
      apply andb_true_iff in Hcode as [->%N.eqb_eq Hcode].
      exists (reverse body). split; [by right|]. apply code_plain; [|done].
      rewrite Htext in Hlow. by apply Forall_app in Hlow as [? _].
  - intros (body & [->| ->] & Hlen & Hall).
    + left. by apply code_plain.
    + right. rewrite reverse_app. simpl. rewrite reverse_involutive.
      apply code_plain; [|done]. by apply Forall_app in Hlow as [? _].
Qed.

(** X19: [_looks_like_division] accepts a text that is not empty and,
    once lower-cased, either contains one of the known words or is a code
    of one to twelve digits, hyphens and spaces with at least one digit,
    possibly followed by a newline. Since the text is lower-cased before
    the code pattern is tried, a code with a letter is accepted only for
    the known words it contains. *)
Theorem looks_like_division_codes (text : list N) :
  looks_like_division text = true ↔
  text ≠ []
  ∧ (Exists (λ t, contains t (str_lower text) = true) tokens
     ∨ (∃ body, (str_lower text = body ∨ str_lower text = body ++ [10%N])
          ∧ 1 ≤ length body ≤ 12
          ∧ Forall (λ c, (48 ≤ c ≤ 57)%N ∨ c = 45%N ∨ c = 32%N) body)
       ∧ Exists (λ c, cp_isdigit c = true) (str_lower text)).
Proof.
  unfold looks_like_division. destruct text as [|c text]; simpl is_empty.
  { split; [done|]. by intros [? _]. }
  cbv zeta. set (lower := str_lower (c :: text)).
  assert (∀ {A} (f : A → bool) (l : list A),
            existsb f l = true ↔ Exists (λ x, f x = true) l) as Hexists.
  { intros A f l. rewrite existsb_exists, Exists_exists.
    by setoid_rewrite list_elem_of_In. }
  destruct (existsb (λ t, contains t lower) tokens) eqn:Htok.
  - apply Hexists in Htok. split; [|done]. intros _. split; [done|]. by left.
  - rewrite andb_true_iff, Hexists, short_code_plain
      by apply lower_no_capitals.
    split.
    + intros [? ?]. split; [done|]. by right.
    + intros [_ [Hin|?]]; [|done].
      apply Hexists in Hin. congruence.
Qed.

End DivisionFacts.

Lemma latin1_lower_no_capitals (s : list N) :
  Forall (λ c, Division.capital c = false) (str_lower s).
Proof.
  unfold str_lower. simpl. apply Forall_fmap, Forall_forall. intros c _.
  simpl. unfold Latin1.lower_cp, Division.capital.
  apply not_true_is_false. intros Hcap.
  destruct ((65 <=? c) && (c <=? 90)
            || (192 <=? c) && (c <=? 222) && negb (c =? 215))%N eqn:Hup;
    bool_to_prop;
    repeat match goal with
           | Hn : negb _ = true |- _ => apply negb_true_iff in Hn
           | Hn : negb _ = false |- _ => apply negb_false_iff in Hn
           end;
    bool_to_prop; lia.
Qed.

(** The code JAS is not accepted: lower-cased, it has letters the code
    pattern does not take. *)
Lemma looks_like_division_codes_witness :
  Division.looks_like_division (lit "JAS") = false
  ∧ (Division.looks_like_division (lit "JAS") = true ↔
     lit "JAS" ≠ []
     ∧ (Exists (λ t, contains t (str_lower (lit "JAS")) = true)
          Division.tokens
        ∨ (∃ body, (str_lower (lit "JAS") = body
                    ∨ str_lower (lit "JAS") = body ++ [10%N])
             ∧ 1 ≤ length body ≤ 12
             ∧ Forall (λ c, (48 ≤ c ≤ 57)%N ∨ c = 45%N ∨ c = 32%N) body)
          ∧ Exists (λ c, cp_isdigit c = true) (str_lower (lit "JAS")))).
Proof.
  split; [vm_compute; reflexivity|].
  exact (looks_like_division_codes latin1_lower_no_capitals (lit "JAS")).
Defined.
